(** * multiprocesser.py: a process pool that reports worker process identifiers

    Shallow embedding of [src/multiprocesser.py].  The script itself is a
    dozen lines; what it observes is decided by the operating system (which
    process identifiers the forked workers get), by the pool's scheduling
    (which worker runs which chunk of tasks, and in which order the chunk
    results come back) and by the iteration order of a Python [set].  These
    three are gathered in an environment record [env]; the script is a
    function of the environment, and the theorems quantify over every
    environment that describes a complete run.

    The functions of Python's standard library that the script calls
    ([print], [str], [str.join], [set], [range], [os.getpid] and
    [multiprocessing.Pool] with its [map]) are modelled after CPython's
    [Lib/multiprocessing/pool.py]: [map] cuts the iterable into chunks,
    every chunk is run by one worker, and the chunk results are written
    into the slots of a [MapResult] by chunk number. *)

From Stdlib Require Import ZArith DecimalString.
From stdpp Require Import gmap strings list sorting.

Local Open Scope string_scope.
Local Open Scope list_scope.
Local Open Scope nat_scope.

(** ** Python values, exceptions, processes *)

(** The objects that occur in the result list: the integers returned by
    the tasks and [None], with which [MapResult] pre-fills its slots. *)
Inductive pyval :=
  | PyNone
  | PyInt (z : Z).

#[global] Instance pyval_eq_dec : EqDecision pyval.
Proof. solve_decision. Defined.

#[global] Instance pyval_countable : Countable pyval.
Proof.
  refine (inj_countable'
    (λ v, match v with PyNone => None | PyInt z => Some z end)
    (λ o, match o with None => PyNone | Some z => PyInt z end) _).
  by intros [].
Defined.

Inductive exn :=
  | ValueError (msg : string)
  | ZeroDivisionError.

Inductive result (A : Type) :=
  | Ok (a : A)
  | Raise (e : exn).
Arguments Ok {A} a.
Arguments Raise {A} e.

(** An operating-system process; all the script ever asks of it is its
    identifier. *)
Record process := { pid : Z }.

(** Code that runs inside one process. *)
Definition Py (A : Type) : Type := process → result A.

Definition os_getpid : Py Z := λ p, Ok (pid p).

(** ** The task function (lines 4-5)

    def fun(x):
        return os.getpid()                                              *)
Definition fun_ (x : Z) : Py pyval :=
  λ p, match os_getpid p with
       | Ok i => Ok (PyInt i)
       | Raise e => Raise e
       end.

(** ** The driver: observable events and the driver monad *)

Inductive event :=
  | Write (s : string)          (* text written to standard output *)
  | Spawn (p : Z)               (* the pool starts the worker with pid [p] *)
  | Submit (t : nat)            (* task [t] (its position in the iterable) is handed to the pool *)
  | Exec (p : Z) (t : nat)      (* the worker with pid [p] calls the task function on task [t] *)
  | Collect (c : nat)           (* the result of chunk [c] is stored in the driver *)
  | Join (p : Z).               (* the worker with pid [p] is terminated and joined *)

#[global] Instance event_eq_dec : EqDecision event.
Proof. solve_decision. Defined.

(** How a piece of driver code ends: it returns, it raises, or it waits
    forever for results that never arrive. *)
Inductive outcome (A : Type) :=
  | Ret (a : A)
  | Exc (e : exn)
  | Blocked.
Arguments Ret {A} a.
Arguments Exc {A} e.
Arguments Blocked {A}.

(** Driver code: its outcome and the events it produced, oldest first. *)
Definition Drv (A : Type) : Type := (outcome A * list event)%type.

Definition ret {A} (a : A) : Drv A := (Ret a, []).
Definition raise {A} (e : exn) : Drv A := (Exc e, []).
Definition emit (evs : list event) : Drv unit := (Ret tt, evs).

Definition bind {A B} (m : Drv A) (k : A → Drv B) : Drv B :=
  match m.1 with
  | Ret a => let r := k a in (r.1, m.2 ++ r.2)
  | Exc e => (Exc e, m.2)
  | Blocked => (Blocked, m.2)
  end.

(** [try: m finally: c]; nothing runs after a driver that is blocked. *)
Definition finally {A} (m : Drv A) (c : Drv unit) : Drv A :=
  match m.1 with
  | Blocked => m
  | r => match c.1 with
         | Ret _ => (r, m.2 ++ c.2)
         | Exc e => (Exc e, m.2 ++ c.2)
         | Blocked => (Blocked, m.2 ++ c.2)
         end
  end.

Declare Scope drv_scope.
Delimit Scope drv_scope with drv.
Notation "x <- m ;; k" := (bind m (λ x, k))
  (at level 100, m at next level, right associativity) : drv_scope.
Notation "m ;; k" := (bind m (λ _, k))
  (at level 100, right associativity) : drv_scope.
Local Open Scope drv_scope.

(** ** Built-ins *)

(** [str(v)] *)
Definition str (v : pyval) : string :=
  match v with
  | PyNone => "None"
  | PyInt z => NilZero.string_of_int (Z.to_int z)
  end.

(** [sep.join(l)] *)
Definition join (sep : string) (l : list string) : string := String.concat sep l.

Definition nl : Ascii.ascii := Ascii.ascii_of_nat 10.

Definition newline : string := String nl "".

(** [print(a, b, ...)]: the arguments separated by one space, then a
    newline. *)
Definition print (args : list string) : Drv unit :=
  emit [Write (join " " args +:+ newline)].

(** [range(n)] as the list it enumerates: [n] integers from [0] on. *)
Fixpoint range_from (start : Z) (n : nat) : list Z :=
  match n with
  | 0 => []
  | S n' => start :: range_from (start + 1) n'
  end.

Definition range (n : nat) : list Z := range_from 0 n.

(** [set(l)] *)
Definition set_ (l : list pyval) : gset pyval := list_to_set l.

(** [l[a:b] = r] for [0 <= a], [0 <= b]: both bounds are clamped to the
    length of [l], and an upper bound below the lower one counts as the
    lower one. *)
Definition slice_assign {A} (l : list A) (a b : nat) (r : list A) : list A :=
  take a l ++ r ++ drop (b `max` a) l.

(** ** The environment of a run *)

Record env := {
  (* [os.process_cpu_count()]; [None] when it cannot be determined *)
  cpu_count : option nat;
  (* the process identifier the operating system gives the [k]-th worker
     the pool starts *)
  spawn : nat → Z;
  (* which worker (by its position in the pool) runs which chunk, in the
     order in which the chunk results reach the driver *)
  schedule : list (nat * nat);
  (* the order in which a set is iterated.  The script iterates one set
     per run, and this is the order of that set: Python's order also
     depends on how the set was filled, so two runs that fill equal sets
     differently are two environments *)
  set_iter : gset pyval → list pyval
}.

(** ** multiprocessing.Pool *)

Record pool := { pool_workers : list process }.

(** [Pool()]: [processes] defaults to [os.process_cpu_count() or 1]; one
    worker process is started per slot.  The workers stay the same until
    the pool is left: Python's pool also replaces a worker that exits,
    which with the default [maxtasksperchild] only happens when a worker
    dies, and that is not modelled. *)
Definition default_processes (E : env) : nat :=
  match cpu_count E with
  | Some n => if n =? 0 then 1 else n
  | None => 1
  end.

Definition Pool (E : env) : Drv pool :=
  let processes := default_processes E in
  if processes <? 1 then raise (ValueError "Number of processes must be at least 1")
  else
    let ws := (λ k, {| pid := spawn E k |}) <$> seq 0 processes in
    emit (Spawn ∘ pid <$> ws) ;;
    ret {| pool_workers := ws |}.

(** [Pool.terminate()], which is what [Pool.__exit__] calls: every worker
    is terminated and joined. *)
Definition terminate (p : pool) : Drv unit :=
  emit (Join ∘ pid <$> pool_workers p).

(** [with Pool() as pool: body] *)
Definition with_Pool {A} (E : env) (body : pool → Drv A) : Drv A :=
  p <- Pool E ;;
  finally (body p) (terminate p).

(** [Pool._get_tasks]: slices of [size] elements until the iterable is
    used up.  The loop leaves at the first empty slice; [fuel] bounds the
    number of slices. *)
Fixpoint get_tasks_loop {A} (fuel : nat) (it : list A) (size : nat) : list (list A) :=
  match fuel with
  | 0 => []
  | S fuel' =>
      match take size it with
      | [] => []
      | x => x :: get_tasks_loop fuel' (drop size it) size
      end
  end.

Definition get_tasks {A} (it : list A) (size : nat) : list (list A) :=
  get_tasks_loop (S (length it)) it size.

(** [mapstar] in the worker [w]: [list(map(func, args))], the tasks of
    the chunk being numbered from [t] on.  The first exception ends the
    chunk. *)
Fixpoint mapstar (func : Z → Py pyval) (w : process) (t : nat) (args : list Z)
  : result (list pyval) * list event :=
  match args with
  | [] => (Ok [], [])
  | x :: args' =>
      match func x w with
      | Ok y =>
          let r := mapstar func w (S t) args' in
          (match r.1 with Ok ys => Ok (y :: ys) | Raise e => Raise e end,
           Exec (pid w) t :: r.2)
      | Raise e => (Raise e, [Exec (pid w) t])
      end
  end.

(** [MapResult]: the slots for the results, the number of chunks still
    missing and the flag that wakes the driver.  Python keeps the first
    exception in the same field as the slots; here it has its own. *)
Record MapResult := {
  mr_success : bool;
  mr_value : list pyval;
  mr_error : option exn;
  mr_chunksize : nat;
  mr_number_left : Z;
  mr_event : bool
}.

(** [length//chunksize + bool(length % chunksize)], and no chunk at all
    for a chunk size of zero. *)
Definition number_of_chunks (length chunksize : nat) : nat :=
  if chunksize =? 0 then 0
  else length / chunksize + (if length mod chunksize =? 0 then 0 else 1).

Definition MapResult_new (chunksize length : nat) : MapResult :=
  {| mr_success := true;
     mr_value := replicate length PyNone;
     mr_error := None;
     mr_chunksize := chunksize;
     mr_number_left := Z.of_nat (number_of_chunks length chunksize);
     mr_event := chunksize =? 0 |}.

(** [MapResult._set(i, (success, result))] *)
Definition MapResult_set (i : nat) (sr : result (list pyval)) (r : MapResult) : MapResult :=
  let left := (mr_number_left r - 1)%Z in
  let ev := mr_event r || bool_decide (left = 0%Z) in
  match sr with
  | Ok res =>
      if mr_success r then
        {| mr_success := true;
           mr_value := slice_assign (mr_value r) (i * mr_chunksize r)
                         ((i + 1) * mr_chunksize r) res;
           mr_error := mr_error r;
           mr_chunksize := mr_chunksize r;
           mr_number_left := left;
           mr_event := ev |}
      else
        {| mr_success := false; mr_value := mr_value r; mr_error := mr_error r;
           mr_chunksize := mr_chunksize r; mr_number_left := left; mr_event := ev |}
  | Raise e =>
      {| mr_success := false;
         mr_value := mr_value r;
         mr_error := if mr_success r then Some e else mr_error r;
         mr_chunksize := mr_chunksize r;
         mr_number_left := left;
         mr_event := ev |}
  end.

(** [MapResult.get()] without a timeout. *)
Definition MapResult_get (r : MapResult) : Drv (list pyval) :=
  if mr_event r then
    if mr_success r then ret (mr_value r)
    else match mr_error r with Some e => raise e | None => ret (mr_value r) end
  else (Blocked, []).

(** One entry [(c, k)] of the schedule: the [k]-th worker runs chunk [c]
    and its result is stored.  Entries that name no chunk or no worker
    describe nothing that happens. *)
Definition deliver (func : Z → Py pyval) (p : pool) (batches : list (list Z))
    (st : MapResult * list event) (e : nat * nat) : MapResult * list event :=
  match batches !! e.1, pool_workers p !! e.2 with
  | Some args, Some w =>
      let r := mapstar func w (e.1 * mr_chunksize st.1) args in
      (MapResult_set e.1 r.1 st.1, st.2 ++ r.2 ++ [Collect e.1])
  | _, _ => st
  end.

(** The chunk size [map] picks for [n] tasks and [w] workers:
    [chunksize, extra = divmod(n, w * 4)], one more when [extra] is not
    zero, and zero for an empty iterable. *)
Definition default_chunksize (n w : nat) : nat :=
  let d := w * 4 in
  let chunksize := if n mod d =? 0 then n / d else n / d + 1 in
  if n =? 0 then 0 else chunksize.

(** [pool.map(func, iterable)] with the default chunk size. *)
Definition Pool_map (E : env) (p : pool) (func : Z → Py pyval) (iterable : list Z)
  : Drv (list pyval) :=
  let n := length iterable in
  let d := length (pool_workers p) * 4 in
  if d =? 0 then raise ZeroDivisionError
  else
    let chunksize := default_chunksize n (length (pool_workers p)) in
    let task_batches := get_tasks iterable chunksize in
    let result := MapResult_new chunksize n in
    emit (Submit <$> seq 0 n) ;;
    let st := foldl (deliver func p task_batches) (result, []) (schedule E) in
    emit st.2 ;;
    MapResult_get st.1.

(** ** The script (lines 7-13)

    The guard [if __name__ == "__main__"] keeps a worker process that
    imports the module again from running these lines: a worker runs
    tasks and nothing else. *)

Definition start_line : string := "PYTHON: starting multiprocessing pool".
Definition end_line : string := "PYTHON: ended multiprocessing pool".
Definition ids_label : string := "PYTHON: process IDs: ".

(** Lines 8-11: the pool is created, the tasks are mapped, the pool is
    left. *)
Definition run (E : env) (iterable : list Z) : Drv (list pyval) :=
  print [start_line] ;;
  processes <- with_Pool E (λ pool, Pool_map E pool fun_ iterable) ;;
  print [end_line] ;;
  ret processes.

(** Lines 12-13. *)
Definition summarize (E : env) (processes : list pyval) : Drv unit :=
  let processes := str <$> set_iter E (set_ processes) in
  print [ids_label; join ", " processes].

Definition program (E : env) (iterable : list Z) : Drv unit :=
  processes <- run E iterable ;;
  summarize E processes.

Definition task_count : nat := Z.to_nat 1000000.

Definition main (E : env) : Drv unit := program E (range task_count).

(** What the events put on standard output. *)
Definition stdout (tr : list event) : string :=
  foldr (λ e acc, match e with Write s => s +:+ acc | _ => acc end) "" tr.


(** ** Environments that describe a complete run *)

(** Every chunk is run once, by a worker of the pool. *)
Definition complete_schedule (E : env) (n : nat) : Prop :=
  let w := default_processes E in
  (schedule E).*1 ≡ₚ seq 0 (number_of_chunks n (default_chunksize n w)) ∧
  Forall (λ e, e.2 < w) (schedule E).

(** Iterating a set yields each of its elements once. *)
Definition set_iter_ok (E : env) : Prop :=
  ∀ s, set_iter E s ≡ₚ elements s.

(** The events of one schedule entry: the worker calls the task function
    on the tasks of the chunk, then the chunk result is stored. *)
Definition chunk_events (E : env) (cs n : nat) (e : nat * nat) : list event :=
  (Exec (spawn E e.2) <$> seq (e.1 * cs) (cs `min` (n - e.1 * cs))) ++ [Collect e.1].


(** ** Reading a trace *)

Definition is_write (e : event) : bool :=
  match e with Write _ => true | _ => false end.

(** The events of the tasks: submission, execution, collection. *)
Definition is_task_event (e : event) : bool :=
  match e with Submit _ | Exec _ _ | Collect _ => true | _ => false end.

Definition is_join (e : event) : bool :=
  match e with Join _ => true | _ => false end.

(** [e] is an execution of task [t]. *)
Definition is_exec (t : nat) (e : event) : bool :=
  match e with Exec _ t' => bool_decide (t' = t) | _ => false end.

(** Every event that satisfies [P] comes before every event that
    satisfies [Q]. *)
Definition precedes (P Q : event → Prop) (tr : list event) : Prop :=
  ∀ i j e1 e2, tr !! i = Some e1 → tr !! j = Some e2 → P e1 → Q e2 → i < j.

(** The lines of a text, each without its terminating newline. *)
Fixpoint lines (s : string) : list string :=
  match s with
  | EmptyString => []
  | String c s' =>
      if Ascii.eqb c nl then EmptyString :: lines s'
      else match lines s' with
           | [] => [String c EmptyString]
           | l :: ls => String c l :: ls
           end
  end.

Fixpoint no_newline (s : string) : bool :=
  match s with
  | EmptyString => true
  | String c s' => negb (Ascii.eqb c nl) && no_newline s'
  end.

Definition is_spawn (e : event) : bool :=
  match e with Spawn _ => true | _ => false end.

Definition is_submit (e : event) : bool :=
  match e with Submit _ => true | _ => false end.

(** ** What a complete run looks like *)

(** The workers of the pool. *)
Definition spawned (E : env) : list process :=
  (λ k, {| pid := spawn E k |}) <$> seq 0 (default_processes E).

(** Everything between the two status lines: the workers start, the tasks
    are submitted, the chunks are run and collected, the workers are
    joined. *)
Definition pool_trace (E : env) (n : nat) : list event :=
  (Spawn ∘ pid <$> spawned E) ++
  (Submit <$> seq 0 n) ++
  (schedule E ≫= chunk_events E (default_chunksize n (default_processes E)) n) ++
  (Join ∘ pid <$> spawned E).

(** The text of the last line, given the list the pool returned. *)
Definition ids_line (E : env) (processes : list pyval) : string :=
  ids_label +:+ " " +:+ join ", " (str <$> set_iter E (set_ processes)).

(** The slots after the schedule entries [done] have been delivered. *)
Record map_inv (E : env) (cs n : nat) (done : list (nat * nat))
    (st : MapResult * list event) : Prop := {
  inv_success : mr_success st.1 = true;
  inv_chunksize : mr_chunksize st.1 = cs;
  inv_left : mr_number_left st.1 =
    (Z.of_nat (number_of_chunks n cs) - Z.of_nat (length done))%Z;
  inv_event : mr_event st.1 = bool_decide (length done = number_of_chunks n cs);
  inv_length : length (mr_value st.1) = n;
  inv_done : ∀ t k, t < n → (t / cs, k) ∈ done →
    mr_value st.1 !! t = Some (PyInt (spawn E k));
  inv_todo : ∀ t, t < n → t / cs ∉ done.*1 → mr_value st.1 !! t = Some PyNone;
  inv_trace : st.2 = done ≫= chunk_events E cs n
}.

(** ** A host with four processors

    Four workers with the process identifiers 1001 to 1004; the sixteen
    chunks of the million tasks come back last chunk first, chunk [c]
    being run by worker [c mod 4]; a set is iterated in increasing
    order. *)

Definition pyval_le (a b : pyval) : Prop :=
  match a, b with
  | PyNone, _ => True
  | PyInt _, PyNone => False
  | PyInt x, PyInt y => (x ≤ y)%Z
  end.

#[global] Instance pyval_le_dec : RelDecision pyval_le.
Proof. intros [|x] [|y]; simpl; apply _. Defined.

Definition host4 : env :=
  {| cpu_count := Some 4;
     spawn := λ k, (1001 + Z.of_nat k)%Z;
     schedule := (λ c, (c, c mod 4)) <$> reverse (seq 0 16);
     set_iter := λ s, merge_sort pyval_le (elements s) |}.

(** ** A host with two processors and five tasks

    Two workers with the process identifiers 500 and 501; the five chunks
    of one task each come back last chunk first, chunk [c] being run by
    worker [c mod 2]; a set is iterated in the order of its
    representation. *)

Definition host2 : env :=
  {| cpu_count := Some 2;
     spawn := λ k, (500 + Z.of_nat k)%Z;
     schedule := (λ c, (c, c mod 2)) <$> reverse (seq 0 5);
     set_iter := elements |}.

Definition five_tasks : list Z := [10; 20; 30; 40; 50]%Z.

(** ** Further environments *)

(** A schedule that delivers some chunks, each at most once, and leaves
    at least one out: the result of that chunk never reaches the
    driver. *)
Definition stalled_schedule (E : env) (n : nat) : Prop :=
  let w := default_processes E in
  let N := number_of_chunks n (default_chunksize n w) in
  NoDup (schedule E).*1 ∧
  Forall (λ e, e.1 < N ∧ e.2 < w) (schedule E) ∧
  length (schedule E) < N.

Definition is_collect (e : event) : bool :=
  match e with Collect _ => true | _ => false end.

(** A host whose processor count cannot be determined, with three tasks. *)
Definition host_unknown : env :=
  {| cpu_count := None;
     spawn := λ _, 4242%Z;
     schedule := (λ c, (c, 0)) <$> reverse (seq 0 3);
     set_iter := elements |}.

Definition three_tasks : list Z := [7; 8; 9]%Z.

(** The two-processor host with the chunks coming back in order, the
    first three run by the second worker, and a set iterated the other
    way round. *)
Definition host2_in_order : env :=
  {| cpu_count := Some 2;
     spawn := λ k, (500 + Z.of_nat k)%Z;
     schedule := [(0, 1); (1, 1); (2, 1); (3, 0); (4, 0)];
     set_iter := λ s, reverse (elements s) |}.

(** The two-processor host when the chunks 1 and 3 never come back. *)
Definition host2_stalled : env :=
  {| cpu_count := Some 2;
     spawn := λ k, (500 + Z.of_nat k)%Z;
     schedule := [(4, 0); (0, 1); (2, 0)];
     set_iter := elements |}.

(** A list of events all of one kind has, or lacks, a property that only
    depends on the kind. *)
Ltac events_of_kind :=
  first [ apply Forall_fmap, Forall_true; intros ?; simpl; by auto
        | apply Forall_bind, Forall_true; intros ?; simpl; unfold chunk_events;
          apply Forall_app_2;
          [ apply Forall_fmap, Forall_true; intros ?; simpl; by auto
          | apply Forall_singleton; simpl; by auto ] ].


(** ** Arithmetic of chunks *)

Lemma default_processes_pos E : 0 < default_processes E.
Proof.
  unfold default_processes. destruct (cpu_count E) as [n|]; [|lia].
  destruct (Nat.eqb_spec n 0); lia.
Qed.

Lemma default_chunksize_pos n w : 0 < n → 0 < w → 0 < default_chunksize n w.
Proof.
  intros Hn Hw. unfold default_chunksize.
  destruct (Nat.eqb_spec n 0); [lia|].
  destruct (Nat.eqb_spec (n mod (w * 4)) 0) as [Hm|Hm]; [|lia].
  pose proof (Nat.div_mod_eq n (w * 4)). nia.
Qed.

Lemma default_chunksize_0 w : default_chunksize 0 w = 0.
Proof. reflexivity. Qed.

Lemma number_of_chunks_lt n cs c :
  0 < cs → c < number_of_chunks n cs ↔ c * cs < n.
Proof.
  intros Hcs. unfold number_of_chunks.
  destruct (Nat.eqb_spec cs 0); [lia|].
  pose proof (Nat.div_mod_eq n cs) as Hd.
  pose proof (Nat.mod_upper_bound n cs ltac:(lia)) as Hm.
  destruct (Nat.eqb_spec (n mod cs) 0); split; nia.
Qed.

Lemma chunk_of_task n cs c t :
  0 < cs → c * cs ≤ t < c * cs + cs `min` (n - c * cs) ↔ t / cs = c ∧ t < n.
Proof.
  intros Hcs.
  pose proof (Nat.div_mod_eq t cs) as Hd.
  pose proof (Nat.mod_upper_bound t cs ltac:(lia)) as Hm.
  split.
  - intros [H1 H2]. split; [|lia].
    symmetry. apply (Nat.div_unique t cs c (t - c * cs)); lia.
  - intros [<- Hn]. nia.
Qed.
(** ** Lists: slices, chunks *)

Lemma slice_assign_length {A} (l r : list A) a b :
  a ≤ b → a ≤ length l → length r = b `min` length l - a →
  length (slice_assign l a b r) = length l.
Proof.
  intros Hab Ha Hr. unfold slice_assign.
  rewrite !length_app, length_take, length_drop. lia.
Qed.

Lemma slice_assign_lookup {A} (l r : list A) a b t :
  a ≤ b → a ≤ length l → length r = b `min` length l - a →
  slice_assign l a b r !! t =
    if decide (a ≤ t < a + length r) then r !! (t - a) else l !! t.
Proof.
  intros Hab Ha Hr. unfold slice_assign.
  destruct (decide (t < a)) as [Hlt|Hge].
  - rewrite lookup_app_l by (rewrite length_take; lia).
    rewrite lookup_take_lt by lia. case_decide; [lia|done].
  - rewrite lookup_app_r by (rewrite length_take; lia).
    rewrite length_take, Nat.min_l by lia.
    case_decide as Hin.
    + by rewrite lookup_app_l by lia.
    + rewrite lookup_app_r by lia. rewrite lookup_drop.
      destruct (decide (b ≤ length l)).
      * f_equal. lia.
      * rewrite !lookup_ge_None_2; [done|lia..].
Qed.

Lemma get_tasks_loop_lookup {A} fuel (it : list A) size c :
  0 < size → length it < fuel →
  get_tasks_loop fuel it size !! c =
    if decide (c * size < length it) then Some (take size (drop (c * size) it))
    else None.
Proof.
  intros Hsize. revert it c.
  induction fuel as [|fuel IH]; intros it c Hfuel; [lia|].
  simpl. destruct (take size it) as [|x xs] eqn:Htake.
  - assert (length (take size it) = 0) as Hlen by (by rewrite Htake).
    rewrite length_take in Hlen.
    rewrite lookup_nil. case_decide; [|done]. nia.
  - assert (length (take size it) ≠ 0) as Hlen by (by rewrite Htake).
    rewrite length_take in Hlen.
    destruct c as [|c].
    + simpl. rewrite drop_0, Htake. case_decide; [done|lia].
    + simpl. rewrite IH by (rewrite length_drop; lia).
      rewrite length_drop, drop_drop.
      repeat case_decide; try done; lia.
Qed.

Lemma get_tasks_lookup {A} (it : list A) size c :
  0 < size →
  get_tasks it size !! c =
    if decide (c * size < length it) then Some (take size (drop (c * size) it))
    else None.
Proof. intros. apply get_tasks_loop_lookup; [done|lia]. Qed.

Lemma get_tasks_size_0 {A} (it : list A) : get_tasks it 0 = [].
Proof. reflexivity. Qed.

Lemma chunk_length {A} (it : list A) size c :
  length (take size (drop (c * size) it)) = size `min` (length it - c * size).
Proof. by rewrite length_take, length_drop. Qed.

(** The task function in a worker: every call returns the worker's pid. *)
Lemma mapstar_fun_ w t args :
  mapstar fun_ w t args =
    (Ok (replicate (length args) (PyInt (pid w))),
     Exec (pid w) <$> seq t (length args)).
Proof.
  revert t. induction args as [|x args IH]; intros t; [done|].
  simpl. by rewrite IH.
Qed.

(** ** The invariant of [map]'s result slots *)


Lemma map_inv_new E cs n :
  0 < cs → 0 < n → map_inv E cs n [] (MapResult_new cs n, []).
Proof.
  intros Hcs Hn. split; simpl; try done.
  - lia.
  - destruct (Nat.eqb_spec cs 0); [lia|].
    symmetry. apply bool_decide_eq_false.
    pose proof (proj2 (number_of_chunks_lt n cs 0 Hcs)). lia.
  - by rewrite length_replicate.
  - intros t k _ H. by apply elem_of_nil in H.
  - intros t Ht _. by apply lookup_replicate_2.
Qed.


Lemma spawned_lookup E k :
  k < default_processes E → spawned E !! k = Some {| pid := spawn E k |}.
Proof.
  intros Hk. unfold spawned. by rewrite list_lookup_fmap, lookup_seq_lt.
Qed.

Lemma deliver_inv E (xs : list Z) cs done st e :
  0 < cs →
  map_inv E cs (length xs) done st →
  e.1 ∉ done.*1 →
  e.1 < number_of_chunks (length xs) cs →
  e.2 < default_processes E →
  length done < number_of_chunks (length xs) cs →
  map_inv E cs (length xs) (done ++ [e])
    (deliver fun_ {| pool_workers := spawned E |} (get_tasks xs cs) st e).
Proof.
  intros Hcs [Hsucc Hchunk Hleft Hev Hlen Hdone Htodo Htr] Hfresh Hc Hk Hlt.
  destruct e as [c k]; simpl in *.
  pose proof (proj1 (number_of_chunks_lt _ _ _ Hcs) Hc) as Hc'.
  unfold deliver; simpl.
  rewrite get_tasks_lookup by done.
  rewrite decide_True by done.
  rewrite spawned_lookup by done.
  rewrite mapstar_fun_, chunk_length; simpl.
  unfold MapResult_set. rewrite Hsucc, Hchunk.
  set (len := cs `min` (length xs - c * cs)).
  assert (length (replicate len (PyInt (spawn E k))) =
          ((c + 1) * cs) `min` length (mr_value st.1) - c * cs) as Hr.
  { rewrite length_replicate, Hlen. unfold len. lia. }
  split; simpl.
  - done.
  - done.
  - rewrite Hleft, length_app. simpl. lia.
  - rewrite Hev, bool_decide_eq_false_2 by lia. simpl.
    rewrite Hleft, length_app. simpl.
    apply bool_decide_ext. lia.
  - rewrite slice_assign_length; [done|lia..].
  - intros t k' Ht Hin.
    rewrite slice_assign_lookup by (done || lia).
    rewrite length_replicate.
    apply elem_of_app in Hin as [Hin|Hin].
    + rewrite decide_False.
      { by apply Hdone. }
      intros Hrange. apply chunk_of_task in Hrange as [Hdiv _]; [|done].
      apply Hfresh. rewrite <- Hdiv.
      apply list_elem_of_fmap. by exists (t / cs, k').
    + apply list_elem_of_singleton in Hin. injection Hin as Hdiv ->.
      rewrite decide_True by (apply chunk_of_task; done).
      apply lookup_replicate_2.
      assert (c * cs ≤ t < c * cs + len) by (apply chunk_of_task; done).
      lia.
  - intros t Ht Hnot.
    rewrite slice_assign_lookup by (done || lia).
    rewrite length_replicate.
    rewrite fmap_app in Hnot. simpl in Hnot.
    rewrite decide_False.
    { apply Htodo; [done|]. intros Hin. apply Hnot, elem_of_app. by left. }
    intros Hrange. apply chunk_of_task in Hrange as [Hdiv _]; [|done].
    apply Hnot, elem_of_app. right. rewrite Hdiv. apply list_elem_of_singleton. done.
  - rewrite Htr, bind_app. simpl. rewrite app_nil_r. done.
Qed.

Lemma foldl_deliver_inv E (xs : list Z) cs rest : ∀ done st,
  0 < cs →
  map_inv E cs (length xs) done st →
  NoDup (done ++ rest).*1 →
  Forall (λ e, e.1 < number_of_chunks (length xs) cs ∧ e.2 < default_processes E) rest →
  length done + length rest = number_of_chunks (length xs) cs →
  map_inv E cs (length xs) (done ++ rest)
    (foldl (deliver fun_ {| pool_workers := spawned E |} (get_tasks xs cs)) st rest).
Proof.
  induction rest as [|e rest IH]; intros done st Hcs Hinv Hnd Hall Hlen.
  - by rewrite app_nil_r.
  - simpl. rewrite cons_middle, (assoc_L (++)).
    apply Forall_cons in Hall as [[Hc Hk] Hall].
    rewrite cons_middle, (assoc_L (++)) in Hnd.
    apply IH; [done| |done|done|].
    + apply deliver_inv; [done..| | done | done |simpl in Hlen; lia].
      rewrite !fmap_app in Hnd. apply NoDup_app in Hnd as [Hnd _].
      apply NoDup_app in Hnd as (_ & Hnd & _).
      intros Hin. apply (Hnd _ Hin). simpl. apply list_elem_of_singleton. done.
    + rewrite length_app. simpl in *. lia.
Qed.

(** A schedule entry that names no chunk changes nothing; with no chunk
    at all, the whole schedule changes nothing. *)
Lemma foldl_deliver_nil func p sched st :
  foldl (deliver func p []) st sched = st.
Proof.
  revert st. induction sched as [|e sched IH]; intros st; [done|].
  simpl. unfold deliver at 2. by rewrite lookup_nil.
Qed.

Lemma complete_schedule_facts E n :
  complete_schedule E n →
  let N := number_of_chunks n (default_chunksize n (default_processes E)) in
  NoDup (schedule E).*1 ∧
  Forall (λ e, e.1 < N ∧ e.2 < default_processes E) (schedule E) ∧
  length (schedule E) = N ∧
  (∀ c, c < N → ∃ k, (c, k) ∈ schedule E).
Proof.
  intros [Hperm Hw] N. fold N in Hperm. repeat split.
  - rewrite Hperm. apply NoDup_seq.
  - apply Forall_forall. intros e He. split.
    + assert (e.1 ∈ (schedule E).*1) as Hin by (apply list_elem_of_fmap; eauto).
      rewrite Hperm in Hin. apply elem_of_seq in Hin. lia.
    + by apply (proj1 (Forall_forall _ _) Hw).
  - rewrite <- (length_fmap fst), Hperm. apply length_seq.
  - intros c Hc.
    assert (c ∈ (schedule E).*1) as Hin by (rewrite Hperm; apply elem_of_seq; lia).
    apply list_elem_of_fmap in Hin as ([c' k] & -> & Hin). by exists k.
Qed.

(** What [map] returns for the task function of the script, and the events
    it produces, in a run whose every chunk is delivered. *)
Lemma Pool_map_fun_ E (xs : list Z) :
  complete_schedule E (length xs) →
  let n := length xs in
  let cs := default_chunksize n (default_processes E) in
  ∃ l, Pool_map E {| pool_workers := spawned E |} fun_ xs =
         (Ret l, (Submit <$> seq 0 n) ++ (schedule E ≫= chunk_events E cs n)) ∧
       length l = n ∧
       ∀ t, t < n → ∃ k, (t / cs, k) ∈ schedule E ∧ k < default_processes E ∧
                         l !! t = Some (PyInt (spawn E k)).
Proof.
  intros Hsched n cs.
  pose proof (default_processes_pos E) as Hw.
  destruct (complete_schedule_facts E n Hsched) as (Hnd & Hall & Hlen & Hcover).
  fold cs in Hall, Hlen, Hcover.
  unfold Pool_map; simpl.
  assert (length (spawned E) = default_processes E) as Hsp.
  { unfold spawned. by rewrite length_fmap, length_seq. }
  rewrite Hsp. destruct (Nat.eqb_spec (default_processes E * 4) 0) as [|_]; [lia|].
  fold n cs.
  destruct (decide (n = 0)) as [Hn0|Hn0].
  - assert (cs = 0) as Hcs by (unfold cs; rewrite Hn0; apply default_chunksize_0).
    rewrite Hcs in *. rewrite get_tasks_size_0, foldl_deliver_nil.
    assert (schedule E = []) as ->.
    { apply length_zero_iff_nil. rewrite Hlen. done. }
    exists []. rewrite Hn0. repeat split. intros t Ht. lia.
  - assert (0 < cs) as Hcs by (apply default_chunksize_pos; lia).
    pose proof (foldl_deliver_inv E xs cs (schedule E) [] (MapResult_new cs n, [])
      Hcs (map_inv_new E cs n Hcs ltac:(lia)) Hnd Hall Hlen)
      as [Hsucc Hchunk Hleft Hev Hlength Hdone Htodo Htr].
    simpl in *.
    set (st := foldl _ _ _) in *.
    exists (mr_value st.1). split; [|split; [done|]].
    + unfold bind, emit, MapResult_get; simpl.
      rewrite Hev, Hsucc, bool_decide_eq_true_2 by done. simpl.
      by rewrite Htr, app_nil_r.
    + intros t Ht.
      destruct (Hcover (t / cs)) as [k Hk].
      { apply number_of_chunks_lt; [done|].
        pose proof (Nat.div_mod_eq t cs). lia. }
      exists k. split; [done|]. split.
      * by apply (proj1 (Forall_forall _ _) Hall (t / cs, k)).
      * by apply Hdone.
Qed.

(** ** The events of a complete run *)



Lemma Pool_spawned E :
  Pool E = (Ret {| pool_workers := spawned E |}, Spawn ∘ pid <$> spawned E).
Proof.
  unfold Pool. pose proof (default_processes_pos E).
  destruct (Nat.ltb_spec (default_processes E) 1); [lia|].
  unfold bind, emit, ret; simpl. by rewrite app_nil_r.
Qed.

Lemma run_complete E (xs : list Z) :
  complete_schedule E (length xs) →
  let n := length xs in
  let cs := default_chunksize n (default_processes E) in
  ∃ l, run E xs =
         (Ret l, Write (start_line +:+ newline) :: pool_trace E n ++
                 [Write (end_line +:+ newline)]) ∧
       length l = n ∧
       ∀ t, t < n → ∃ k, (t / cs, k) ∈ schedule E ∧ k < default_processes E ∧
                         l !! t = Some (PyInt (spawn E k)).
Proof.
  intros Hsched n cs.
  destruct (Pool_map_fun_ E xs Hsched) as (l & Hmap & Hlen & Hl).
  exists l. split; [|done].
  unfold run, with_Pool. rewrite Pool_spawned.
  unfold bind at 2; simpl. rewrite Hmap.
  unfold finally, terminate, print, emit, ret, bind; simpl.
  unfold pool_trace. fold n cs. by rewrite <- !(assoc_L (++)).
Qed.

Lemma program_complete E (xs : list Z) :
  complete_schedule E (length xs) →
  let n := length xs in
  ∃ l, (run E xs).1 = Ret l ∧
       program E xs =
         (Ret tt, Write (start_line +:+ newline) :: pool_trace E n ++
                  [Write (end_line +:+ newline); Write (ids_line E l +:+ newline)]).
Proof.
  intros Hsched n.
  destruct (run_complete E xs Hsched) as (l & Hrun & _).
  exists l. split; [by rewrite Hrun|].
  unfold program. rewrite Hrun.
  unfold bind, summarize, print, emit; simpl.
  by rewrite <- (assoc_L (++)).
Qed.

(** ** Text: lines and newlines *)

Lemma append_cons c (a b : string) : String c a +:+ b = String c (a +:+ b).
Proof. reflexivity. Qed.

Lemma append_assoc (a b c : string) : (a +:+ b) +:+ c = a +:+ (b +:+ c).
Proof.
  induction a as [|x a IH]; [done|].
  by rewrite !append_cons, IH.
Qed.

Lemma append_empty_r (a : string) : a +:+ "" = a.
Proof.
  induction a as [|x a IH]; [done|].
  by rewrite append_cons, IH.
Qed.

Lemma no_newline_app a b :
  no_newline (a +:+ b) = no_newline a && no_newline b.
Proof.
  induction a as [|x a IH]; [done|].
  rewrite append_cons. simpl. by rewrite IH, andb_assoc.
Qed.

Lemma no_newline_join sep l :
  no_newline sep → Forall (λ s, no_newline s) l → no_newline (join sep l).
Proof.
  intros Hsep Hl. unfold join.
  induction Hl as [|s l Hs Hl IH]; simpl; [done|].
  destruct l as [|s' l]; [done|].
  rewrite !no_newline_app. rewrite !andb_True. done.
Qed.

Lemma no_newline_uint d : no_newline (NilEmpty.string_of_uint d).
Proof. induction d; simpl; done. Qed.

Lemma no_newline_str v : no_newline (str v).
Proof.
  destruct v as [|z]; [done|]. unfold str, NilZero.string_of_int.
  destruct (Z.to_int z) as [d|d]; unfold NilZero.string_of_uint;
    destruct d; simpl; try done; apply no_newline_uint.
Qed.

Lemma lines_line l rest :
  no_newline l → lines (l +:+ newline +:+ rest) = l :: lines rest.
Proof.
  induction l as [|c l IH]; intros Hl; [done|].
  rewrite append_cons. simpl in *.
  apply andb_True in Hl as [Hc Hl].
  destruct (Ascii.eqb c nl); [done|].
  by rewrite IH.
Qed.

Lemma stdout_write s tr : stdout (Write s :: tr) = s +:+ stdout tr.
Proof. reflexivity. Qed.

Lemma stdout_silent a b :
  Forall (λ e, ¬ is_write e) a → stdout (a ++ b) = stdout b.
Proof.
  induction 1 as [|e a He Ha IH]; simpl; [done|].
  destruct e; simpl in *; done.
Qed.

Lemma pool_trace_Forall (P : event → Prop) E n :
  (∀ p, P (Spawn p)) → (∀ t, P (Submit t)) → (∀ p t, P (Exec p t)) →
  (∀ c, P (Collect c)) → (∀ p, P (Join p)) →
  Forall P (pool_trace E n).
Proof.
  intros Hsp Hsu Hex Hco Hjo. unfold pool_trace.
  repeat apply Forall_app_2.
  - apply Forall_fmap, Forall_true. intros x. apply Hsp.
  - apply Forall_fmap, Forall_true. intros x. apply Hsu.
  - apply Forall_bind, Forall_true. intros e. simpl.
    unfold chunk_events. apply Forall_app_2.
    + apply Forall_fmap, Forall_true. intros x. apply Hex.
    + apply Forall_singleton, Hco.
  - apply Forall_fmap, Forall_true. intros x. apply Hjo.
Qed.

Lemma pool_trace_silent E n : Forall (λ e, ¬ is_write e) (pool_trace E n).
Proof. apply pool_trace_Forall; simpl; auto. Qed.

(** Standard output of a complete run. *)
Lemma program_stdout E (xs : list Z) :
  complete_schedule E (length xs) →
  ∃ l, (run E xs).1 = Ret l ∧
       stdout (program E xs).2 =
         start_line +:+ newline +:+ end_line +:+ newline +:+ ids_line E l +:+ newline.
Proof.
  intros Hsched.
  destruct (program_complete E xs Hsched) as (l & Hrun & Hprog).
  exists l. split; [done|]. rewrite Hprog. simpl snd.
  rewrite stdout_write, stdout_silent by apply pool_trace_silent.
  rewrite !stdout_write. change (stdout []) with "".
  by rewrite !append_assoc, append_empty_r.
Qed.

Lemma program_lines E (xs : list Z) :
  complete_schedule E (length xs) →
  ∃ l, (run E xs).1 = Ret l ∧
       lines (stdout (program E xs).2) = [start_line; end_line; ids_line E l].
Proof.
  intros Hsched.
  destruct (program_stdout E xs Hsched) as (l & Hrun & Hout).
  exists l. split; [done|]. rewrite Hout.
  rewrite lines_line by done.
  rewrite lines_line by done.
  replace (ids_line E l +:+ newline) with (ids_line E l +:+ newline +:+ "")
    by (by rewrite append_empty_r).
  rewrite lines_line; [done|].
  unfold ids_line. rewrite !no_newline_app.
  repeat (apply andb_True; split); try done.
  apply no_newline_join; [done|].
  apply Forall_fmap, Forall_true. intros v. apply no_newline_str.
Qed.

(** ** Filtering and ordering events *)

Lemma filter_none {A} (P : A → Prop) `{∀ x, Decision (P x)} (l : list A) :
  Forall (λ x, ¬ P x) l → filter P l = [].
Proof.
  induction 1 as [|x l Hx Hl IH]; [done|].
  by rewrite filter_cons_False.
Qed.

Lemma filter_all {A} (P : A → Prop) `{∀ x, Decision (P x)} (l : list A) :
  Forall P l → filter P l = l.
Proof.
  induction 1 as [|x l Hx Hl IH]; [done|].
  by rewrite filter_cons_True, IH.
Qed.

Lemma filter_exec_seq p t a k :
  filter (λ e, is_exec t e) (Exec p <$> seq a k) =
    if decide (a ≤ t < a + k) then [Exec p t] else [].
Proof.
  revert a. induction k as [|k IH]; intros a; simpl.
  - case_decide; [lia|done].
  - destruct (decide (a = t)) as [->|Hne].
    + rewrite filter_cons_True by (simpl; by apply bool_decide_pack).
      rewrite IH. rewrite decide_False by lia. rewrite decide_True by lia. done.
    + rewrite filter_cons_False
        by (simpl; rewrite bool_decide_eq_false_2 by done; auto).
      rewrite IH. repeat case_decide; try done; lia.
Qed.

Lemma filter_exec_chunk E cs n t e :
  0 < cs →
  filter (λ e, is_exec t e) (chunk_events E cs n e) =
    if decide (t / cs = e.1 ∧ t < n) then [Exec (spawn E e.2) t] else [].
Proof.
  intros Hcs. unfold chunk_events.
  rewrite filter_app, filter_exec_seq.
  rewrite (filter_none _ [Collect _]) by (apply Forall_singleton; simpl; auto).
  rewrite app_nil_r.
  pose proof (chunk_of_task n cs e.1 t Hcs).
  repeat case_decide; try done; tauto.
Qed.

Lemma filter_exec_schedule E cs n t sched :
  0 < cs → t < n → NoDup sched.*1 →
  filter (λ e, is_exec t e) (sched ≫= chunk_events E cs n) =
    (λ e, Exec (spawn E e.2) t) <$> filter (λ e, e.1 = t / cs) sched.
Proof.
  intros Hcs Ht. induction sched as [|e sched IH]; intros Hnd; [done|].
  simpl in Hnd. apply NoDup_cons in Hnd as [_ Hnd].
  rewrite bind_cons, filter_app, filter_exec_chunk, IH by done.
  destruct (decide (e.1 = t / cs)) as [Heq|Hne].
  - rewrite filter_cons_True by done. rewrite decide_True by done. done.
  - rewrite filter_cons_False by done. rewrite decide_False by (intros [? _]; done).
    done.
Qed.

Lemma filter_key_NoDup (sched : list (nat * nat)) c k :
  NoDup sched.*1 → (c, k) ∈ sched →
  filter (λ e, e.1 = c) sched = [(c, k)].
Proof.
  induction sched as [|e sched IH]; intros Hnd Hin.
  - by apply elem_of_nil in Hin.
  - simpl in Hnd. apply NoDup_cons in Hnd as [Hfresh Hnd].
    apply elem_of_cons in Hin as [<-|Hin].
    + rewrite filter_cons_True by done. f_equal.
      apply filter_none, Forall_forall. intros e' He' Heq. simpl in *.
      apply Hfresh. rewrite <- Heq. apply list_elem_of_fmap. by exists e'.
    + rewrite filter_cons_False; [by apply IH|].
      intros Heq. apply Hfresh. rewrite Heq.
      apply list_elem_of_fmap. by exists (c, k).
Qed.

Lemma precedes_app (P Q : event → Prop) a b :
  Forall (λ e, ¬ Q e) a → Forall (λ e, ¬ P e) b → precedes P Q (a ++ b).
Proof.
  intros Ha Hb i j e1 e2 Hi Hj HP HQ.
  destruct (decide (i < length a)) as [Hlt|Hge].
  - destruct (decide (j < length a)) as [Hjlt|]; [|lia].
    rewrite lookup_app_l in Hj by done.
    by destruct (proj1 (Forall_lookup _ _) Ha j e2 Hj).
  - rewrite lookup_app_r in Hi by lia.
    by destruct (proj1 (Forall_lookup _ _) Hb _ e1 Hi).
Qed.

(** ** The set of distinct results *)

Lemma size_list_to_set_le (l : list pyval) : size (set_ l) ≤ length l.
Proof.
  unfold set_. induction l as [|x l IH].
  - rewrite list_to_set_nil, size_empty. done.
  - rewrite list_to_set_cons, size_union_alt, size_singleton. simpl.
    assert (size (list_to_set l ∖ {[x]} : gset pyval) ≤ size (list_to_set l : gset pyval)).
    { apply subseteq_size, subseteq_difference_l. done. }
    lia.
Qed.

Lemma size_set_pos (l : list pyval) : l ≠ [] → 0 < size (set_ l).
Proof.
  destruct l as [|x l]; [done|]. intros _. unfold set_.
  rewrite list_to_set_cons, size_union_alt, size_singleton. lia.
Qed.

(** ** The four-processor host *)

Lemma range_from_length start n : length (range_from start n) = n.
Proof. revert start. induction n as [|n IH]; intros start; simpl; [done|by rewrite IH]. Qed.

Lemma range_length n : length (range n) = n.
Proof. apply range_from_length. Qed.

Lemma host4_chunks :
  number_of_chunks task_count (default_chunksize task_count (default_processes host4)) = 16.
Proof. vm_compute. reflexivity. Qed.

Lemma host4_complete : complete_schedule host4 task_count.
Proof.
  unfold complete_schedule. rewrite host4_chunks. split.
  - change ((schedule host4).*1) with (reverse (seq 0 16)).
    apply reverse_Permutation.
  - apply Forall_forall. intros e He.
    apply list_elem_of_fmap in He as (c & -> & _).
    change (c mod 4 < 4). apply Nat.mod_upper_bound. lia.
Defined.

(** Every host has a complete run: the chunks in order, dealt to the
    workers in turn. *)
Lemma round_robin_complete E n :
  schedule E =
    (λ c, (c, c mod default_processes E)) <$>
      seq 0 (number_of_chunks n (default_chunksize n (default_processes E))) →
  complete_schedule E n.
Proof.
  intros Hs. unfold complete_schedule. rewrite Hs. split.
  - rewrite <- list_fmap_compose.
    generalize (seq 0 (number_of_chunks n (default_chunksize n (default_processes E)))).
    intros l. induction l as [|c l IH]; [done|].
    rewrite fmap_cons. simpl. by constructor.
  - apply Forall_fmap, Forall_true. intros c. simpl.
    apply Nat.mod_upper_bound. pose proof (default_processes_pos E). lia.
Qed.

Lemma host4_set_iter_ok : set_iter_ok host4.
Proof. intros s. apply merge_sort_Permutation. Defined.


(** ** Events of the pool, by kind *)

Lemma pool_trace_submits E n :
  filter (λ e, is_submit e) (pool_trace E n) = Submit <$> seq 0 n.
Proof.
  unfold pool_trace. rewrite !filter_app.
  rewrite (filter_none _ (Spawn ∘ pid <$> _)) by events_of_kind.
  rewrite (filter_all _ (Submit <$> _)) by events_of_kind.
  rewrite (filter_none _ (_ ≫= _)) by events_of_kind.
  rewrite (filter_none _ (Join ∘ pid <$> _)) by events_of_kind.
  by rewrite !app_nil_r.
Qed.

Lemma pool_trace_spawns E n :
  filter (λ e, is_spawn e) (pool_trace E n) = Spawn ∘ pid <$> spawned E.
Proof.
  unfold pool_trace. rewrite !filter_app.
  rewrite (filter_all _ (Spawn ∘ pid <$> _)) by events_of_kind.
  rewrite (filter_none _ (Submit <$> _)) by events_of_kind.
  rewrite (filter_none _ (_ ≫= _)) by events_of_kind.
  rewrite (filter_none _ (Join ∘ pid <$> _)) by events_of_kind.
  by rewrite !app_nil_r.
Qed.

Lemma pool_trace_execs E n t k :
  let cs := default_chunksize n (default_processes E) in
  0 < cs → t < n → NoDup (schedule E).*1 → (t / cs, k) ∈ schedule E →
  filter (λ e, is_exec t e) (pool_trace E n) = [Exec (spawn E k) t].
Proof.
  intros cs Hcs Ht Hnd Hin. unfold pool_trace. rewrite !filter_app.
  rewrite (filter_none _ (Spawn ∘ pid <$> _)) by events_of_kind.
  rewrite (filter_none _ (Submit <$> _)) by events_of_kind.
  rewrite (filter_none _ (Join ∘ pid <$> _)) by events_of_kind.
  fold cs. rewrite filter_exec_schedule by done.
  by rewrite (filter_key_NoDup _ _ k).
Qed.

Lemma task_count_million : Z.of_nat task_count = 1000000%Z.
Proof. unfold task_count. by rewrite Z2Nat.id. Qed.

Lemma task_count_pos : 0 < task_count.
Proof. pose proof task_count_million. lia. Qed.

(** The result list and the executions, for any iterable. *)
Lemma run_pid_per_task E (xs : list Z) :
  complete_schedule E (length xs) →
  ∃ processes,
    (run E xs).1 = Ret processes ∧
    length processes = length xs ∧
    filter (λ e, is_submit e) (run E xs).2 = Submit <$> seq 0 (length xs) ∧
    ∀ t, t < length xs →
      ∃ k, k < default_processes E ∧
           processes !! t = Some (PyInt (spawn E k)) ∧
           filter (λ e, is_exec t e) (run E xs).2 = [Exec (spawn E k) t].
Proof.
  intros Hsched.
  destruct (run_complete E _ Hsched) as (l & Hrun & Hl & Hpid).
  destruct (complete_schedule_facts E _ Hsched) as (Hnd & _).
  exists l. rewrite Hrun. simpl fst. simpl snd. split; [done|]. split; [done|]. split.
  - rewrite filter_cons_False by (simpl; auto).
    rewrite filter_app, pool_trace_submits.
    rewrite (filter_none _ [_]) by (apply Forall_singleton; simpl; auto).
    by rewrite app_nil_r.
  - intros t Ht. destruct (Hpid t Ht) as (k & Hin & Hk & Hlook).
    exists k. split; [done|]. split; [done|].
    rewrite filter_cons_False by (simpl; auto).
    rewrite filter_app, (pool_trace_execs E _ t k); [|  |exact Ht|exact Hnd|exact Hin].
    + rewrite (filter_none _ [_]) by (apply Forall_singleton; simpl; auto).
      done.
    + apply default_chunksize_pos; [lia|apply default_processes_pos].
Qed.


(** ** The distinct results *)

(** Every result is the pid of a worker of the pool. *)
Lemma results_from_pool E (xs : list Z) :
  complete_schedule E (length xs) →
  ∃ l, (run E xs).1 = Ret l ∧ length l = length xs ∧
       ∀ v, v ∈ l → ∃ k, k < default_processes E ∧ v = PyInt (spawn E k).
Proof.
  intros Hsched.
  destruct (run_complete E _ Hsched) as (l & Hrun & Hl & Hpid).
  exists l. rewrite Hrun. split; [done|]. split; [done|].
  intros v Hv. apply list_elem_of_lookup in Hv as [t Ht].
  assert (t < length xs) as Hlt.
  { rewrite <- Hl. by apply lookup_lt_Some with v. }
  destruct (Hpid t Hlt) as (k & _ & Hk & Hlook).
  exists k. split; [done|]. congruence.
Qed.

(** The distinct results are the pids of the workers that the schedule
    gives a chunk. *)
Lemma distinct_results E (xs : list Z) :
  complete_schedule E (length xs) →
  ∃ l, (run E xs).1 = Ret l ∧
       set_ l = list_to_set ((λ e, PyInt (spawn E e.2)) <$> schedule E).
Proof.
  intros Hsched.
  destruct (run_complete E _ Hsched) as (l & Hrun & Hl & Hpid).
  destruct (complete_schedule_facts E _ Hsched) as (Hnd & Hall & Hlen & Hcover).
  exists l. rewrite Hrun. split; [done|].
  unfold set_. apply set_eq. intros v.
  rewrite !elem_of_list_to_set. split.
  - intros Hv. apply list_elem_of_lookup in Hv as [t Ht].
    assert (t < length xs) as Hlt.
    { rewrite <- Hl. by apply lookup_lt_Some with v. }
    destruct (Hpid t Hlt) as (k & Hin & _ & Hlook).
    apply list_elem_of_fmap. exists (t / default_chunksize (length xs) (default_processes E), k).
    split; [simpl; congruence|done].
  - intros Hv. apply list_elem_of_fmap in Hv as ([c k] & -> & Hin). simpl.
    set (cs := default_chunksize (length xs) (default_processes E)) in *.
    pose proof (proj1 (Forall_forall _ _) Hall _ Hin) as [Hc _]. simpl in Hc.
    assert (0 < cs) as Hcs.
    { destruct (decide (cs = 0)) as [Hz|]; [|lia].
      rewrite Hz in Hc. unfold number_of_chunks in Hc. simpl in Hc. lia. }
    pose proof (proj1 (number_of_chunks_lt _ _ _ Hcs) Hc) as Hlt.
    destruct (Hpid (c * cs) Hlt) as (k' & Hin' & _ & Hlook).
    fold cs in Hin'. rewrite Nat.div_mul in Hin' by lia.
    assert (k' = k) as ->.
    { pose proof (filter_key_NoDup _ c k Hnd Hin) as H1.
      pose proof (filter_key_NoDup _ c k' Hnd Hin') as H2.
      congruence. }
    apply list_elem_of_lookup. by exists (c * cs).
Qed.

(** ** Independence of the values of the iterable *)

Lemma get_tasks_loop_lengths {A B} fuel (xs : list A) (ys : list B) size :
  length xs = length ys →
  length <$> get_tasks_loop fuel xs size = length <$> get_tasks_loop fuel ys size.
Proof.
  revert xs ys. induction fuel as [|fuel IH]; intros xs ys Hlen; [done|].
  simpl.
  assert (length (take size xs) = length (take size ys)) as Htake
    by (by rewrite !length_take, Hlen).
  destruct (take size xs) as [|x xs'] eqn:Hx, (take size ys) as [|y ys'] eqn:Hy;
    try done.
  rewrite !fmap_cons. f_equal; [done|].
  apply IH. by rewrite !length_drop, Hlen.
Qed.

Lemma deliver_lengths p (b1 b2 : list (list Z)) st e :
  length <$> b1 = length <$> b2 →
  deliver fun_ p b1 st e = deliver fun_ p b2 st e.
Proof.
  intros Hlen. unfold deliver.
  assert (length <$> b1 !! e.1 = length <$> b2 !! e.1) as Hlook
    by (by rewrite <- !list_lookup_fmap, Hlen).
  destruct (b1 !! e.1) as [args1|], (b2 !! e.1) as [args2|]; try done.
  simpl in Hlook. injection Hlook as Hargs.
  destruct (pool_workers p !! e.2) as [w|]; [|done].
  by rewrite !mapstar_fun_, Hargs.
Qed.

Lemma Pool_map_lengths E p (xs ys : list Z) :
  length xs = length ys →
  Pool_map E p fun_ xs = Pool_map E p fun_ ys.
Proof.
  intros Hlen. unfold Pool_map. rewrite Hlen.
  destruct (length (pool_workers p) * 4 =? 0); [done|].
  set (cs := default_chunksize _ _).
  assert (length <$> get_tasks xs cs = length <$> get_tasks ys cs) as Hb.
  { unfold get_tasks. rewrite Hlen. by apply get_tasks_loop_lengths. }
  generalize (MapResult_new cs (length ys), @nil event).
  generalize (schedule E) as sched.
  induction sched as [|e sched IH]; intros st; [done|].
  simpl. rewrite (deliver_lengths _ _ _ _ _ Hb). apply IH.
Qed.

Lemma with_Pool_ext {A} E (body1 body2 : pool → Drv A) :
  (∀ p, body1 p = body2 p) → with_Pool E body1 = with_Pool E body2.
Proof.
  intros Hbody. unfold with_Pool, bind.
  destruct (Pool E).1 as [p| |]; [|done..].
  by rewrite Hbody.
Qed.

Lemma run_lengths E (xs ys : list Z) :
  length xs = length ys → run E xs = run E ys.
Proof.
  intros Hlen. unfold run.
  assert (with_Pool E (λ pool, Pool_map E pool fun_ xs) =
          with_Pool E (λ pool, Pool_map E pool fun_ ys)) as Hp.
  { apply with_Pool_ext. intros p. by apply Pool_map_lengths. }
  unfold bind at 1 3. simpl.
  unfold bind at 1 3. by rewrite Hp.
Qed.

Lemma program_lengths E (xs ys : list Z) :
  length xs = length ys → program E xs = program E ys.
Proof. intros Hlen. unfold program. by rewrite (run_lengths E xs ys Hlen). Qed.

(** With no task there is no chunk, and [map] returns at once, whatever
    the schedule says. *)
Lemma Pool_map_nil E p :
  pool_workers p ≠ [] → Pool_map E p fun_ [] = (Ret [], []).
Proof.
  intros Hp. unfold Pool_map. simpl length.
  destruct (Nat.eqb_spec (length (pool_workers p) * 4) 0) as [Hz|_].
  { destruct (pool_workers p); [done|simpl in Hz; lia]. }
  rewrite default_chunksize_0, get_tasks_size_0, foldl_deliver_nil.
  reflexivity.
Qed.

(** ** The last line on the four-processor host *)

Lemma set_iter_ok_elem E s v : set_iter_ok E → v ∈ set_iter E s ↔ v ∈ s.
Proof. intros Hok. by rewrite (Hok s), elem_of_elements. Qed.

Lemma set_iter_ok_NoDup E s : set_iter_ok E → NoDup (set_iter E s).
Proof. intros Hok. rewrite (Hok s). apply NoDup_elements. Qed.

Lemma host4_ids_line l :
  set_ l = list_to_set ((λ e, PyInt (spawn host4 e.2)) <$> schedule host4) →
  ids_line host4 l = "PYTHON: process IDs:  1001, 1002, 1003, 1004".
Proof. intros Hl. unfold ids_line. rewrite Hl. vm_compute. reflexivity. Qed.

Lemma host4_third_line :
  lines (stdout (main host4).2) !! 2 =
    Some "PYTHON: process IDs:  1001, 1002, 1003, 1004".
Proof.
  pose proof host4_complete as Hsched.
  rewrite <- (range_length task_count) in Hsched.
  destruct (program_lines host4 _ Hsched) as (l & Hrun & Hlines).
  destruct (distinct_results host4 _ Hsched) as (l' & Hrun' & Hset).
  assert (l' = l) as -> by congruence.
  unfold main. rewrite Hlines. simpl.
  f_equal. by apply host4_ids_line.
Qed.

Lemma join_head sep s l : ∃ rest, join sep (s :: l) = s +:+ rest.
Proof.
  unfold join. destruct l as [|s' l]; simpl.
  - exists "". by rewrite append_empty_r.
  - eauto.
Qed.

(** ** Standard output, for any iterable *)

Lemma program_three_lines E (xs : list Z) :
  complete_schedule E (length xs) →
  ∃ processes third,
    (run E xs).1 = Ret processes ∧
    third = ids_label +:+ " " +:+ join ", " (str <$> set_iter E (set_ processes)) ∧
    (program E xs).1 = Ret tt ∧
    filter (λ e, is_write e) (program E xs).2 =
      [Write (start_line +:+ newline); Write (end_line +:+ newline);
       Write (third +:+ newline)] ∧
    stdout (program E xs).2 =
      start_line +:+ newline +:+ end_line +:+ newline +:+ third +:+ newline ∧
    lines (stdout (program E xs).2) = [start_line; end_line; third].
Proof.
  intros Hsched.
  destruct (program_complete E _ Hsched) as (l & Hrun & Hprog).
  destruct (program_stdout E _ Hsched) as (l1 & Hrun1 & Hout).
  destruct (program_lines E _ Hsched) as (l2 & Hrun2 & Hlines).
  assert (l1 = l) as -> by congruence.
  assert (l2 = l) as -> by congruence.
  exists l, (ids_line E l). split; [exact Hrun|]. split; [reflexivity|].
  split; [by rewrite Hprog|]. split; [|split; [exact Hout|exact Hlines]].
  rewrite Hprog. simpl snd.
  rewrite filter_cons_True by done.
  rewrite filter_app, (filter_none _ (pool_trace _ _)) by apply pool_trace_silent.
  by rewrite !filter_cons_True by done.
Qed.

Lemma complete_schedule_range E n :
  complete_schedule E n → complete_schedule E (length (range n)).
Proof. by rewrite range_length. Qed.

(** ** The order of the events, for any iterable *)

Lemma status_lines_differ : start_line +:+ newline ≠ end_line +:+ newline.
Proof. discriminate. Qed.

Lemma ids_line_not_start E l : ids_line E l +:+ newline ≠ start_line +:+ newline.
Proof.
  unfold ids_line, ids_label, start_line. rewrite !append_cons. discriminate.
Qed.

Lemma ids_line_not_end E l : ids_line E l +:+ newline ≠ end_line +:+ newline.
Proof.
  unfold ids_line, ids_label, end_line. rewrite !append_cons. discriminate.
Qed.

Lemma program_tasks_between_status_lines E (xs : list Z) :
  complete_schedule E (length xs) →
  let tr := (program E xs).2 in
  let cs := default_chunksize (length xs) (default_processes E) in
  Write (start_line +:+ newline) ∈ tr ∧
  Write (end_line +:+ newline) ∈ tr ∧
  precedes (λ e, e = Write (start_line +:+ newline)) (λ e, is_task_event e) tr ∧
  precedes (λ e, is_task_event e) (λ e, e = Write (end_line +:+ newline)) tr ∧
  ∀ t, t < length xs →
    Submit t ∈ tr ∧ (∃ p, Exec p t ∈ tr) ∧ Collect (t / cs) ∈ tr.
Proof.
  intros Hsched tr cs.
  destruct (program_complete E _ Hsched) as (l & Hrun & Hprog).
  destruct (run_complete E _ Hsched) as (l' & _ & _ & Hpid).
  unfold tr. rewrite Hprog. simpl snd.
  split; [apply list_elem_of_here|].
  split.
  { apply elem_of_cons; right. apply elem_of_app; right. apply list_elem_of_here. }
  split.
  { apply (precedes_app _ _ [_]).
    - apply Forall_singleton. simpl. auto.
    - apply Forall_app_2.
      + apply pool_trace_Forall; discriminate.
      + repeat constructor.
        * intros H. apply status_lines_differ. congruence.
        * intros H. apply (ids_line_not_start E l). congruence. }
  split.
  { rewrite app_comm_cons. apply precedes_app.
    - constructor.
      + intros H. apply status_lines_differ. congruence.
      + apply pool_trace_Forall; discriminate.
    - repeat constructor; simpl; auto. }
  intros t Ht. destruct (Hpid t Ht) as (k & Hin & _ & _). fold cs in Hin.
  assert (0 < cs) as Hcs
    by (apply default_chunksize_pos; [lia|apply default_processes_pos]).
  assert (∀ e, e ∈ pool_trace E (length xs) →
    e ∈ Write (start_line +:+ newline) :: pool_trace E (length xs) ++
        [Write (end_line +:+ newline); Write (ids_line E l +:+ newline)]) as Hmid.
  { intros e He. apply elem_of_cons; right. apply elem_of_app. by left. }
  assert (∀ e, e ∈ chunk_events E cs (length xs) (t / cs, k) →
               e ∈ pool_trace E (length xs)) as Hchunk.
  { intros e He. unfold pool_trace. fold cs.
    apply elem_of_app; right. apply elem_of_app; right. apply elem_of_app; left.
    apply list_elem_of_bind. by exists (t / cs, k). }
  split; [|split].
  - apply Hmid. unfold pool_trace.
    apply elem_of_app; right. apply elem_of_app; left.
    apply list_elem_of_fmap. exists t. split; [done|]. apply elem_of_seq. lia.
  - exists (spawn E k). apply Hmid, Hchunk. unfold chunk_events. simpl.
    apply elem_of_app; left. apply list_elem_of_fmap. exists t. split; [done|].
    apply elem_of_seq.
    pose proof (proj2 (chunk_of_task (length xs) cs (t / cs) t Hcs)
                  (conj eq_refl Ht)). lia.
  - apply Hmid, Hchunk. unfold chunk_events. simpl.
    apply elem_of_app; right. apply list_elem_of_here.
Qed.

Lemma program_pool_torn_down E (xs : list Z) :
  complete_schedule E (length xs) →
  let tr := (program E xs).2 in
  (∀ p, Spawn p ∈ tr → Join p ∈ tr) ∧
  (∃ p, Spawn p ∈ tr) ∧
  Write (end_line +:+ newline) ∈ tr ∧
  precedes (λ e, is_join e) (λ e, e = Write (end_line +:+ newline)) tr ∧
  precedes (λ e, is_task_event e) (λ e, is_join e) tr.
Proof.
  intros Hsched tr.
  destruct (program_complete E _ Hsched) as (l & Hrun & Hprog).
  unfold tr. rewrite Hprog. simpl snd.
  assert (∀ e, e ∈ pool_trace E (length xs) →
    e ∈ Write (start_line +:+ newline) :: pool_trace E (length xs) ++
        [Write (end_line +:+ newline); Write (ids_line E l +:+ newline)]) as Hmid.
  { intros e He. apply elem_of_cons; right. apply elem_of_app. by left. }
  assert (∀ w, w ∈ spawned E → Spawn (pid w) ∈ pool_trace E (length xs)) as Hsp.
  { intros w Hw. unfold pool_trace. apply elem_of_app; left.
    apply list_elem_of_fmap. by exists w. }
  assert (∀ w, w ∈ spawned E → Join (pid w) ∈ pool_trace E (length xs)) as Hjo.
  { intros w Hw. unfold pool_trace. do 3 (apply elem_of_app; right).
    apply list_elem_of_fmap. by exists w. }
  split; [|split; [|split; [|split]]].
  - intros p Hp.
    assert (Spawn p ∈ filter (λ e, is_spawn e) (pool_trace E (length xs))) as Hf.
    { apply list_elem_of_filter. split; [done|].
      apply elem_of_cons in Hp as [Hp|Hp]; [done|].
      apply elem_of_app in Hp as [Hp|Hp]; [done|].
      repeat (apply elem_of_cons in Hp as [Hp|Hp]; [done|]).
      by apply elem_of_nil in Hp. }
    rewrite pool_trace_spawns in Hf.
    apply list_elem_of_fmap in Hf as (w & [= ->] & Hw).
    by apply Hmid, Hjo.
  - exists (spawn E 0). apply Hmid, (Hsp {| pid := spawn E 0 |}).
    apply list_elem_of_lookup. exists 0.
    apply spawned_lookup, default_processes_pos.
  - apply elem_of_cons; right. apply elem_of_app; right. apply list_elem_of_here.
  - rewrite app_comm_cons. apply precedes_app.
    + constructor.
      * intros H. apply status_lines_differ. congruence.
      * apply pool_trace_Forall; discriminate.
    + repeat constructor; simpl; auto.
  - unfold pool_trace.
    match goal with
    | |- precedes _ _ (?w :: (?sp ++ ?su ++ ?sc ++ ?jo) ++ ?tl) =>
        replace (w :: (sp ++ su ++ sc ++ jo) ++ tl)
          with ((w :: sp ++ su ++ sc) ++ (jo ++ tl))
          by (simpl; by rewrite <- !(assoc_L (++)))
    end.
    apply precedes_app.
    + constructor; [simpl; auto|].
      repeat apply Forall_app_2; events_of_kind.
    + apply Forall_app_2; [events_of_kind|repeat constructor; simpl; auto].
Qed.

(** ** The two-processor host *)

Lemma host2_complete : complete_schedule host2 (length five_tasks).
Proof.
  split.
  - change (reverse (seq 0 5) ≡ₚ seq 0 5). apply reverse_Permutation.
  - apply Forall_forall. intros e He.
    apply list_elem_of_fmap in He as (c & -> & _).
    change (c mod 2 < 2). apply Nat.mod_upper_bound. lia.
Defined.

(** ** No task at all *)

Lemma run_no_task E :
  run E [] = (Ret [], Write (start_line +:+ newline) ::
                      (Spawn ∘ pid <$> spawned E) ++ (Join ∘ pid <$> spawned E) ++
                      [Write (end_line +:+ newline)]).
Proof.
  unfold run, with_Pool. rewrite Pool_spawned.
  unfold bind at 2; simpl. rewrite Pool_map_nil.
  - unfold finally, terminate, print, emit, ret, bind; simpl.
    by rewrite <- !(assoc_L (++)).
  - simpl. intros Hnil.
    pose proof (spawned_lookup E 0 (default_processes_pos E)) as H0.
    by rewrite Hnil in H0.
Qed.

Lemma set_iter_empty E : set_iter_ok E → set_iter E (set_ []) = [].
Proof.
  intros Hok. apply Permutation_nil_r. rewrite (Hok (set_ [])).
  unfold set_. by rewrite list_to_set_nil, elements_empty.
Qed.

(** ** The script on the two-processor host *)

Example run_host2 :
  run host2 five_tasks =
    (Ret [PyInt 500; PyInt 501; PyInt 500; PyInt 501; PyInt 500],
     [Write (start_line +:+ newline);
      Spawn 500; Spawn 501;
      Submit 0; Submit 1; Submit 2; Submit 3; Submit 4;
      Exec 500 4; Collect 4; Exec 501 3; Collect 3; Exec 500 2; Collect 2;
      Exec 501 1; Collect 1; Exec 500 0; Collect 0;
      Join 500; Join 501;
      Write (end_line +:+ newline)]).
Proof. vm_compute. reflexivity. Qed.

Example lines_host2 :
  lines (stdout (program host2 five_tasks).2) =
    ["PYTHON: starting multiprocessing pool";
     "PYTHON: ended multiprocessing pool";
     "PYTHON: process IDs:  501, 500"].
Proof. vm_compute. reflexivity. Qed.

(** A worker that is given no chunk does not show up: four processors,
    three tasks, the three chunks all run by the first worker. *)
Example one_busy_worker :
  lines (stdout (program
    {| cpu_count := Some 4; spawn := λ k, (1001 + Z.of_nat k)%Z;
       schedule := [(0, 0); (1, 0); (2, 0)]; set_iter := elements |}
    [7; 8; 9]%Z).2) !! 2 = Some "PYTHON: process IDs:  1001".
Proof. vm_compute. reflexivity. Qed.

(** A schedule that leaves a chunk out describes a driver that waits
    forever in [map]. *)
Example missing_chunk_blocks :
  (program
    {| cpu_count := Some 1; spawn := λ k, 77%Z;
       schedule := [(0, 0); (2, 0)]; set_iter := elements |}
    [7; 8; 9]%Z).1 = Blocked.
Proof. vm_compute. reflexivity. Qed.
(** ** The claims *)

(** C1: in a complete run, [run] returns a list of exactly 1,000,000
    integers; the tasks are submitted once each in the order of their
    indices; and for every task index [t] the trace has exactly one
    execution of task [t], by the worker whose process identifier is the
    element at position [t] of the list. *)
Theorem run_returns_pid_per_task E :
  complete_schedule E task_count →
  ∃ processes,
    (run E (range task_count)).1 = Ret processes ∧
    Z.of_nat (length processes) = 1000000%Z ∧
    filter (λ e, is_submit e) (run E (range task_count)).2 =
      Submit <$> seq 0 task_count ∧
    ∀ t, t < task_count →
      ∃ p, processes !! t = Some (PyInt p) ∧
           filter (λ e, is_exec t e) (run E (range task_count)).2 = [Exec p t].
Proof.
  intros Hsched.
  pose proof (range_length task_count) as Hlen.
  rewrite <- Hlen in Hsched.
  destruct (run_pid_per_task E _ Hsched) as (l & Hrun & Hl & Hsub & Hpid).
  rewrite Hlen in Hl, Hsub, Hpid.
  exists l. split; [exact Hrun|]. split.
  { rewrite Hl. exact task_count_million. }
  split; [exact Hsub|].
  intros t Ht. destruct (Hpid t Ht) as (k & _ & Hlook & Hexec).
  exists (spawn E k). split; [exact Hlook|exact Hexec].
Qed.

Lemma run_returns_pid_per_task_host4 :
  ∃ processes,
    (run host4 (range task_count)).1 = Ret processes ∧
    Z.of_nat (length processes) = 1000000%Z ∧
    filter (λ e, is_submit e) (run host4 (range task_count)).2 =
      Submit <$> seq 0 task_count ∧
    ∀ t, t < task_count →
      ∃ p, processes !! t = Some (PyInt p) ∧
           filter (λ e, is_exec t e) (run host4 (range task_count)).2 = [Exec p t].
Proof. exact (run_returns_pid_per_task host4 host4_complete). Defined.

(** C2: for every integer index and every process, the task function
    returns the identifier of the process that runs it; the index does
    not occur in the result, the function is the same for every index. *)
Theorem fun_returns_own_pid :
  (∀ (x : Z) (w : process), fun_ x w = Ok (PyInt (pid w))) ∧
  (∀ x y : Z, fun_ x = fun_ y).
Proof. split; reflexivity. Qed.

(** C3, as the code has it: the third line is the label
    [PYTHON: process IDs: ], then the single space that [print] puts
    between its two arguments, then the textual representations of the
    distinct results joined by [", "]; the distinct results are listed
    once each, in the order in which the set is iterated, and each is the
    process identifier of a worker of the pool. *)
Theorem ids_line_label_space_joined E :
  complete_schedule E task_count → set_iter_ok E →
  ∃ processes ids,
    (run E (range task_count)).1 = Ret processes ∧
    NoDup ids ∧
    (∀ v, v ∈ ids ↔ v ∈ processes) ∧
    (∀ v, v ∈ ids → ∃ k, k < default_processes E ∧ v = PyInt (spawn E k)) ∧
    lines (stdout (main E).2) !! 2 =
      Some (ids_label +:+ " " +:+ join ", " (str <$> ids)).
Proof.
  intros Hsched Hok.
  rewrite <- (range_length task_count) in Hsched.
  destruct (program_lines E _ Hsched) as (l & Hrun & Hlines).
  destruct (results_from_pool E _ Hsched) as (l' & Hrun' & _ & Hpool).
  assert (l' = l) as -> by congruence.
  exists l, (set_iter E (set_ l)). split; [exact Hrun|].
  split; [by apply set_iter_ok_NoDup|].
  assert (∀ v, v ∈ set_iter E (set_ l) ↔ v ∈ l) as Hin.
  { intros v. rewrite set_iter_ok_elem by done. apply elem_of_list_to_set. }
  split; [exact Hin|]. split.
  - intros v Hv. apply Hpool, Hin, Hv.
  - unfold main. rewrite Hlines. reflexivity.
Qed.

Lemma ids_line_label_space_joined_host4 :
  ∃ processes ids,
    (run host4 (range task_count)).1 = Ret processes ∧
    NoDup ids ∧
    (∀ v, v ∈ ids ↔ v ∈ processes) ∧
    (∀ v, v ∈ ids → ∃ k, k < default_processes host4 ∧ v = PyInt (spawn host4 k)) ∧
    lines (stdout (main host4).2) !! 2 =
      Some (ids_label +:+ " " +:+ join ", " (str <$> ids)).
Proof.
  exact (ids_line_label_space_joined host4 host4_complete host4_set_iter_ok).
Defined.

(** C3 as the specification states it fails on the four-processor host:
    the line has two spaces after the colon, so it is not the label
    followed by the joined identifiers, in whichever order they are
    taken. *)
Lemma ids_line_host4_not_label_joined :
  lines (stdout (main host4).2) !! 2 =
    Some "PYTHON: process IDs:  1001, 1002, 1003, 1004" ∧
  lines (stdout (main host4).2) !! 2 ≠
    Some "PYTHON: process IDs: 1001, 1002, 1003, 1004" ∧
  ¬ ∃ ids, ids ≡ₚ [PyInt 1001; PyInt 1002; PyInt 1003; PyInt 1004] ∧
           lines (stdout (main host4).2) !! 2 =
             Some (ids_label +:+ join ", " (str <$> ids)).
Proof.
  rewrite host4_third_line. split; [done|]. split; [done|].
  intros (ids & Hperm & Heq).
  destruct ids as [|v ids].
  { by apply Permutation_nil_l in Hperm. }
  assert (v ∈ [PyInt 1001; PyInt 1002; PyInt 1003; PyInt 1004]) as Hv
    by (rewrite <- Hperm; apply list_elem_of_here).
  rewrite fmap_cons in Heq.
  destruct (join_head ", " (str v) (str <$> ids)) as [rest Hrest].
  rewrite Hrest in Heq. injection Heq as Heq.
  repeat (apply elem_of_cons in Hv as [->|Hv]);
    try (cbv in Heq; discriminate Heq).
  by apply elem_of_nil in Hv.
Qed.

(** C4: in a complete run the program ends normally and standard output
    holds exactly three lines, in this order: the start line, the end
    line, and the line of the distinct identifiers; these are the only
    writes of the run. *)
Theorem main_writes_three_lines E :
  complete_schedule E task_count →
  ∃ processes third,
    (run E (range task_count)).1 = Ret processes ∧
    third = ids_label +:+ " " +:+ join ", " (str <$> set_iter E (set_ processes)) ∧
    (main E).1 = Ret tt ∧
    filter (λ e, is_write e) (main E).2 =
      [Write (start_line +:+ newline); Write (end_line +:+ newline);
       Write (third +:+ newline)] ∧
    stdout (main E).2 =
      start_line +:+ newline +:+ end_line +:+ newline +:+ third +:+ newline ∧
    lines (stdout (main E).2) = [start_line; end_line; third].
Proof.
  intros Hsched.
  exact (program_three_lines E (range task_count) (complete_schedule_range E _ Hsched)).
Qed.

Lemma main_writes_three_lines_host4 :
  ∃ processes third,
    (run host4 (range task_count)).1 = Ret processes ∧
    third = ids_label +:+ " " +:+
            join ", " (str <$> set_iter host4 (set_ processes)) ∧
    (main host4).1 = Ret tt ∧
    filter (λ e, is_write e) (main host4).2 =
      [Write (start_line +:+ newline); Write (end_line +:+ newline);
       Write (third +:+ newline)] ∧
    stdout (main host4).2 =
      start_line +:+ newline +:+ end_line +:+ newline +:+ third +:+ newline ∧
    lines (stdout (main host4).2) = [start_line; end_line; third].
Proof. exact (main_writes_three_lines host4 host4_complete). Defined.

(** C5: in a complete run with at least one task, the set of distinct
    results has at least one element and at most as many as workers were
    spawned. *)
Theorem distinct_ids_between_1_and_workers E (xs : list Z) :
  complete_schedule E (length xs) → xs ≠ [] →
  ∃ processes,
    (run E xs).1 = Ret processes ∧
    1 ≤ size (set_ processes) ∧
    size (set_ processes) ≤ length (filter (λ e, is_spawn e) (program E xs).2).
Proof.
  intros Hsched Hxs.
  destruct (program_complete E _ Hsched) as (l & Hrun & Hprog).
  destruct (results_from_pool E _ Hsched) as (l' & Hrun' & Hlen & Hpool).
  assert (l' = l) as -> by congruence.
  exists l. split; [exact Hrun|]. split.
  - apply size_set_pos. intros ->. destruct xs; [done|discriminate Hlen].
  - rewrite Hprog. simpl snd.
    rewrite filter_cons_False by (simpl; auto).
    rewrite filter_app, pool_trace_spawns.
    rewrite (filter_none _ [_; _]) by (repeat constructor; simpl; auto).
    rewrite app_nil_r, length_fmap.
    etrans; [|etrans; [apply (size_list_to_set_le (PyInt ∘ pid <$> spawned E))|]].
    + apply subseteq_size. intros v Hv.
      apply elem_of_list_to_set in Hv. apply elem_of_list_to_set.
      destruct (Hpool v Hv) as (k & Hk & ->).
      apply list_elem_of_fmap. exists {| pid := spawn E k |}. split; [done|].
      apply list_elem_of_lookup. exists k. by apply spawned_lookup.
    + by rewrite length_fmap.
Qed.

Lemma distinct_ids_between_1_and_workers_host2 :
  ∃ processes,
    (run host2 five_tasks).1 = Ret processes ∧
    1 ≤ size (set_ processes) ∧
    size (set_ processes) ≤
      length (filter (λ e, is_spawn e) (program host2 five_tasks).2).
Proof.
  apply (distinct_ids_between_1_and_workers host2 five_tasks host2_complete).
  discriminate.
Defined.

(** C6: with no task, [run] returns the empty list, the set of distinct
    results has no element, the joined string is empty, and the last line
    is the label followed by the space of [print]. *)
Theorem no_task_empty_results E :
  set_iter_ok E →
  ∃ processes,
    (run E (range 0)).1 = Ret processes ∧
    processes = [] ∧
    size (set_ processes) = 0 ∧
    join ", " (str <$> set_iter E (set_ processes)) = "" ∧
    lines (stdout (program E (range 0)).2) = [start_line; end_line; ids_label +:+ " "].
Proof.
  intros Hok. exists []. change (range 0) with (@nil Z).
  rewrite run_no_task. split; [done|]. split; [done|]. split.
  { unfold set_. by rewrite list_to_set_nil, size_empty. }
  split.
  { by rewrite set_iter_empty. }
  unfold program. rewrite run_no_task.
  unfold bind, summarize, print, emit. simpl snd. simpl fst.
  rewrite set_iter_empty by done.
  rewrite stdout_write, <- !(assoc_L (++)).
  rewrite !stdout_silent by events_of_kind.
  simpl app. rewrite !stdout_write. change (stdout []) with "".
  rewrite (append_assoc start_line), lines_line by done.
  rewrite (append_assoc end_line), lines_line by done.
  rewrite append_assoc, lines_line by done.
  reflexivity.
Qed.

Lemma no_task_empty_results_host2 :
  ∃ processes,
    (run host2 (range 0)).1 = Ret processes ∧
    processes = [] ∧
    size (set_ processes) = 0 ∧
    join ", " (str <$> set_iter host2 (set_ processes)) = "" ∧
    lines (stdout (program host2 (range 0)).2) =
      [start_line; end_line; ids_label +:+ " "].
Proof.
  apply (no_task_empty_results host2). intros s. reflexivity.
Defined.

(** C8: in a complete run both status lines are printed; the first one
    comes before every submission, execution and collection of a task, the
    second one after all of them; and every task has been submitted,
    executed and collected. *)
Theorem status_lines_around_tasks E :
  complete_schedule E task_count →
  let tr := (main E).2 in
  let cs := default_chunksize task_count (default_processes E) in
  Write (start_line +:+ newline) ∈ tr ∧
  Write (end_line +:+ newline) ∈ tr ∧
  precedes (λ e, e = Write (start_line +:+ newline)) (λ e, is_task_event e) tr ∧
  precedes (λ e, is_task_event e) (λ e, e = Write (end_line +:+ newline)) tr ∧
  ∀ t, t < task_count →
    Submit t ∈ tr ∧ (∃ p, Exec p t ∈ tr) ∧ Collect (t / cs) ∈ tr.
Proof.
  intros Hsched.
  pose proof (program_tasks_between_status_lines E (range task_count)
                (complete_schedule_range E _ Hsched)) as H.
  rewrite range_length in H. exact H.
Qed.

Lemma status_lines_around_tasks_host4 :
  let tr := (main host4).2 in
  let cs := default_chunksize task_count (default_processes host4) in
  Write (start_line +:+ newline) ∈ tr ∧
  Write (end_line +:+ newline) ∈ tr ∧
  precedes (λ e, e = Write (start_line +:+ newline)) (λ e, is_task_event e) tr ∧
  precedes (λ e, is_task_event e) (λ e, e = Write (end_line +:+ newline)) tr ∧
  ∀ t, t < task_count →
    Submit t ∈ tr ∧ (∃ p, Exec p t ∈ tr) ∧ Collect (t / cs) ∈ tr.
Proof. exact (status_lines_around_tasks host4 host4_complete). Defined.

(** C9: the task function returns the same value for any two arguments
    in the same process and never raises; the program, its outcome and
    all its events, depends on the iterable through its length only. *)
Theorem output_depends_on_length_only :
  (∀ (x y : Z) (w : process), fun_ x w = fun_ y w) ∧
  (∀ (x : Z) (w : process), ∃ v, fun_ x w = Ok v) ∧
  (∀ E (xs ys : list Z), length xs = length ys → program E xs = program E ys).
Proof.
  split; [reflexivity|]. split; [intros x w; by eexists|].
  intros E xs ys. apply program_lengths.
Qed.

(** C10: in a complete run every worker that was started is joined, the
    joins come after every task event, and the second status line is
    printed after every join. *)
Theorem end_line_after_pool_teardown E :
  complete_schedule E task_count →
  let tr := (main E).2 in
  (∀ p, Spawn p ∈ tr → Join p ∈ tr) ∧
  (∃ p, Spawn p ∈ tr) ∧
  Write (end_line +:+ newline) ∈ tr ∧
  precedes (λ e, is_join e) (λ e, e = Write (end_line +:+ newline)) tr ∧
  precedes (λ e, is_task_event e) (λ e, is_join e) tr.
Proof.
  intros Hsched.
  exact (program_pool_torn_down E (range task_count)
           (complete_schedule_range E _ Hsched)).
Qed.

Lemma end_line_after_pool_teardown_host4 :
  let tr := (main host4).2 in
  (∀ p, Spawn p ∈ tr → Join p ∈ tr) ∧
  (∃ p, Spawn p ∈ tr) ∧
  Write (end_line +:+ newline) ∈ tr ∧
  precedes (λ e, is_join e) (λ e, e = Write (end_line +:+ newline)) tr ∧
  precedes (λ e, is_task_event e) (λ e, is_join e) tr.
Proof. exact (end_line_after_pool_teardown host4 host4_complete). Defined.

(** ** Further properties of the script *)

Lemma schedule_worker_unique E n c k k' :
  complete_schedule E n → (c, k) ∈ schedule E → (c, k') ∈ schedule E → k = k'.
Proof.
  intros Hsched Hin Hin'.
  destruct (complete_schedule_facts E n Hsched) as (Hnd & _).
  pose proof (filter_key_NoDup _ c k Hnd Hin) as H1.
  pose proof (filter_key_NoDup _ c k' Hnd Hin') as H2.
  congruence.
Qed.

(** X1: in a complete run the distinct results are exactly the process
    identifiers of the workers that were given a chunk: a worker that ran
    no chunk is not listed, and every worker that ran one is. *)
Theorem distinct_ids_are_busy_workers E (xs : list Z) :
  complete_schedule E (length xs) →
  ∃ processes,
    (run E xs).1 = Ret processes ∧
    ∀ v, v ∈ set_ processes ↔ ∃ c k, (c, k) ∈ schedule E ∧ v = PyInt (spawn E k).
Proof.
  intros Hsched.
  destruct (distinct_results E xs Hsched) as (l & Hrun & Hset).
  exists l. split; [exact Hrun|]. intros v. rewrite Hset.
  rewrite elem_of_list_to_set, list_elem_of_fmap. split.
  - intros ([c k] & -> & Hin). by exists c, k.
  - intros (c & k & Hin & ->). by exists (c, k).
Qed.

Lemma distinct_ids_are_busy_workers_host2 :
  ∃ processes,
    (run host2 five_tasks).1 = Ret processes ∧
    ∀ v, v ∈ set_ processes ↔
         ∃ c k, (c, k) ∈ schedule host2 ∧ v = PyInt (spawn host2 k).
Proof. exact (distinct_ids_are_busy_workers host2 five_tasks host2_complete). Defined.

(** X2: when the workers have different process identifiers and each of
    them is given a chunk, the number of distinct results is the number of
    workers, and the last line lists that many identifiers. *)
Theorem all_workers_busy_all_listed E (xs : list Z) :
  complete_schedule E (length xs) → set_iter_ok E →
  (∀ j k, j < default_processes E → k < default_processes E →
          spawn E j = spawn E k → j = k) →
  (∀ k, k < default_processes E → ∃ c, (c, k) ∈ schedule E) →
  ∃ processes,
    (run E xs).1 = Ret processes ∧
    size (set_ processes) = default_processes E ∧
    length (set_iter E (set_ processes)) = default_processes E.
Proof.
  intros Hsched Hok Hinj Hbusy.
  destruct (distinct_results E xs Hsched) as (l & Hrun & Hset).
  destruct (complete_schedule_facts E _ Hsched) as (_ & Hall & _).
  exists l. split; [exact Hrun|].
  assert (set_ l = list_to_set ((λ k, PyInt (spawn E k)) <$> seq 0 (default_processes E)))
    as Hws.
  { rewrite Hset. apply set_eq. intros v.
    rewrite !elem_of_list_to_set, !list_elem_of_fmap. split.
    - intros ([c k] & -> & Hin). exists k. split; [done|].
      apply elem_of_seq. pose proof (proj1 (Forall_forall _ _) Hall _ Hin) as [_ Hk].
      simpl in Hk. lia.
    - intros (k & -> & Hk). apply elem_of_seq in Hk.
      destruct (Hbusy k) as [c Hc]; [lia|]. by exists (c, k). }
  assert (size (set_ l) = default_processes E) as Hsize.
  { rewrite Hws, size_list_to_set.
    - by rewrite length_fmap, length_seq.
    - apply NoDup_fmap_2_strong; [|apply NoDup_seq].
      intros j k Hj Hk [= Heq]. apply elem_of_seq in Hj, Hk.
      apply Hinj; [lia..|done]. }
  split; [exact Hsize|].
  rewrite (Hok (set_ l)). exact Hsize.
Qed.

Lemma host2_pids_differ j k :
  j < default_processes host2 → k < default_processes host2 →
  spawn host2 j = spawn host2 k → j = k.
Proof. intros _ _. simpl. lia. Defined.

Lemma host2_all_busy k :
  k < default_processes host2 → ∃ c, (c, k) ∈ schedule host2.
Proof.
  intros Hk. change (default_processes host2) with 2 in Hk.
  destruct k as [|[|k]]; [exists 0|exists 1|lia];
    apply list_elem_of_In; vm_compute; tauto.
Defined.

Lemma all_workers_busy_all_listed_host2 :
  ∃ processes,
    (run host2 five_tasks).1 = Ret processes ∧
    size (set_ processes) = default_processes host2 ∧
    length (set_iter host2 (set_ processes)) = default_processes host2.
Proof.
  exact (all_workers_busy_all_listed host2 five_tasks host2_complete
           (λ s, reflexivity (elements s)) host2_pids_differ host2_all_busy).
Defined.

(** X3: the results are constant on chunks: two tasks whose indices have
    the same quotient by the chunk size were run by the same worker and
    have the same result. *)
Theorem same_chunk_same_result E (xs : list Z) :
  complete_schedule E (length xs) →
  ∃ processes,
    (run E xs).1 = Ret processes ∧
    ∀ t1 t2, t1 < length xs → t2 < length xs →
      t1 / default_chunksize (length xs) (default_processes E) =
      t2 / default_chunksize (length xs) (default_processes E) →
      processes !! t1 = processes !! t2 ∧
      ∃ p, filter (λ e, is_exec t1 e) (run E xs).2 = [Exec p t1] ∧
           filter (λ e, is_exec t2 e) (run E xs).2 = [Exec p t2].
Proof.
  intros Hsched.
  destruct (run_complete E xs Hsched) as (l & Hrun & _ & Hpid).
  destruct (run_pid_per_task E xs Hsched) as (l' & Hrun' & _ & _ & Hexec).
  assert (l' = l) as -> by (rewrite Hrun in Hrun'; simpl in Hrun'; congruence).
  exists l. split; [exact Hrun'|]. intros t1 t2 Ht1 Ht2 Hdiv.
  destruct (Hpid t1 Ht1) as (k1 & Hin1 & _ & Hl1).
  destruct (Hpid t2 Ht2) as (k2 & Hin2 & _ & Hl2).
  rewrite Hdiv in Hin1.
  assert (k1 = k2) as -> by (by eapply schedule_worker_unique).
  split; [congruence|].
  destruct (Hexec t1 Ht1) as (j1 & _ & Hj1 & He1).
  destruct (Hexec t2 Ht2) as (j2 & _ & Hj2 & He2).
  exists (spawn E k2). split; [congruence|congruence].
Qed.

Lemma same_chunk_same_result_host4 :
  ∃ processes,
    (run host4 (range task_count)).1 = Ret processes ∧
    ∀ t1 t2, t1 < length (range task_count) → t2 < length (range task_count) →
      t1 / default_chunksize (length (range task_count)) (default_processes host4) =
      t2 / default_chunksize (length (range task_count)) (default_processes host4) →
      processes !! t1 = processes !! t2 ∧
      ∃ p, filter (λ e, is_exec t1 e) (run host4 (range task_count)).2 = [Exec p t1] ∧
           filter (λ e, is_exec t2 e) (run host4 (range task_count)).2 = [Exec p t2].
Proof.
  exact (same_chunk_same_result host4 (range task_count)
           (complete_schedule_range host4 _ host4_complete)).
Defined.

Lemma host_unknown_complete : complete_schedule host_unknown (length three_tasks).
Proof.
  split.
  - change (reverse (seq 0 3) ≡ₚ seq 0 3). apply reverse_Permutation.
  - apply Forall_forall. intros e He.
    apply list_elem_of_fmap in He as (c & -> & _).
    change (0 < 1). lia.
Defined.

(** X4: when the number of processors cannot be determined, or is
    reported as zero, the pool has a single worker; with at least one
    task the last line then shows that worker's process identifier and
    nothing else. *)
Theorem unknown_cpu_count_one_id E (xs : list Z) :
  cpu_count E = None ∨ cpu_count E = Some 0 →
  complete_schedule E (length xs) → set_iter_ok E → xs ≠ [] →
  filter (λ e, is_spawn e) (program E xs).2 = [Spawn (spawn E 0)] ∧
  lines (stdout (program E xs).2) !! 2 =
    Some (ids_label +:+ " " +:+ str (PyInt (spawn E 0))).
Proof.
  intros Hcpu Hsched Hok Hxs.
  assert (default_processes E = 1) as Hw.
  { unfold default_processes. by destruct Hcpu as [-> | ->]. }
  destruct (program_complete E xs Hsched) as (l & Hrun & Hprog).
  destruct (program_lines E xs Hsched) as (l1 & Hrun1 & Hlines).
  destruct (results_from_pool E xs Hsched) as (l2 & Hrun2 & Hlen & Hpool).
  assert (l1 = l) as -> by congruence.
  assert (l2 = l) as -> by congruence.
  split.
  - rewrite Hprog. simpl snd.
    rewrite filter_cons_False by (simpl; auto).
    rewrite filter_app, pool_trace_spawns.
    rewrite (filter_none _ [_; _]) by (repeat constructor; simpl; auto).
    rewrite app_nil_r. unfold spawned. by rewrite Hw.
  - rewrite Hlines. simpl. f_equal. unfold ids_line.
    assert (set_ l = {[ PyInt (spawn E 0) ]}) as ->.
    { apply set_eq. intros v. unfold set_.
      rewrite elem_of_list_to_set, elem_of_singleton. split.
      - intros Hv. destruct (Hpool v Hv) as (k & Hk & ->).
        rewrite Hw in Hk. by replace k with 0 by lia.
      - intros ->. destruct l as [|v l].
        { destruct xs; [done|discriminate Hlen]. }
        destruct (Hpool v (list_elem_of_here _ _)) as (k & Hk & ->).
        rewrite Hw in Hk. replace k with 0 by lia. apply list_elem_of_here. }
    assert (set_iter E {[PyInt (spawn E 0)]} = [PyInt (spawn E 0)]) as ->.
    { apply Permutation_singleton_r. by rewrite (Hok _), elements_singleton. }
    reflexivity.
Qed.

Lemma unknown_cpu_count_one_id_host :
  filter (λ e, is_spawn e) (program host_unknown three_tasks).2 =
    [Spawn (spawn host_unknown 0)] ∧
  lines (stdout (program host_unknown three_tasks).2) !! 2 =
    Some (ids_label +:+ " " +:+ str (PyInt (spawn host_unknown 0))).
Proof.
  apply (unknown_cpu_count_one_id host_unknown three_tasks).
  - by left.
  - exact host_unknown_complete.
  - intros s. reflexivity.
  - discriminate.
Defined.

(** X5: which worker ran which chunk, and in which order the chunk
    results came back, only shows in the order of the identifiers on the
    last line: two complete runs with the same process identifiers and
    the same busy workers print the same two status lines and then the
    label, the space and the same identifiers, each run in the order in
    which it iterates its set. *)
Theorem same_busy_workers_same_ids E1 E2 (xs : list Z) :
  (∀ k, spawn E1 k = spawn E2 k) →
  complete_schedule E1 (length xs) → complete_schedule E2 (length xs) →
  set_iter_ok E1 → set_iter_ok E2 →
  (∀ k, k ∈ (schedule E1).*2 ↔ k ∈ (schedule E2).*2) →
  ∃ ids1 ids2,
    ids1 ≡ₚ ids2 ∧
    lines (stdout (program E1 xs).2) =
      [start_line; end_line; ids_label +:+ " " +:+ join ", " (str <$> ids1)] ∧
    lines (stdout (program E2 xs).2) =
      [start_line; end_line; ids_label +:+ " " +:+ join ", " (str <$> ids2)].
Proof.
  intros Hspawn Hs1 Hs2 Hok1 Hok2 Hbusy.
  destruct (program_lines E1 xs Hs1) as (l1 & Hrun1 & Hlines1).
  destruct (program_lines E2 xs Hs2) as (l2 & Hrun2 & Hlines2).
  destruct (distinct_results E1 xs Hs1) as (l1' & Hrun1' & Hset1).
  destruct (distinct_results E2 xs Hs2) as (l2' & Hrun2' & Hset2).
  assert (l1' = l1) as -> by congruence.
  assert (l2' = l2) as -> by congruence.
  exists (set_iter E1 (set_ l1)), (set_iter E2 (set_ l2)).
  split; [|split; [exact Hlines1|exact Hlines2]].
  assert (set_ l1 = set_ l2) as Hset;
    [|by rewrite (Hok1 (set_ l1)), (Hok2 (set_ l2)), Hset].
  rewrite Hset1, Hset2. apply set_eq. intros v.
  rewrite !elem_of_list_to_set, !list_elem_of_fmap. split.
  - intros ([c k] & -> & Hin). simpl.
    assert (k ∈ (schedule E2).*2) as Hk.
    { apply Hbusy, list_elem_of_fmap. by exists (c, k). }
    apply list_elem_of_fmap in Hk as ([c' k'] & Heq & Hin'). simpl in Heq. subst k'.
    exists (c', k). by rewrite Hspawn.
  - intros ([c k] & -> & Hin). simpl.
    assert (k ∈ (schedule E1).*2) as Hk.
    { apply Hbusy, list_elem_of_fmap. by exists (c, k). }
    apply list_elem_of_fmap in Hk as ([c' k'] & Heq & Hin'). simpl in Heq. subst k'.
    exists (c', k). by rewrite Hspawn.
Qed.

Lemma host2_in_order_complete : complete_schedule host2_in_order (length five_tasks).
Proof.
  split.
  - reflexivity.
  - repeat constructor.
Defined.

Lemma host2_same_busy k :
  k ∈ (schedule host2).*2 ↔ k ∈ (schedule host2_in_order).*2.
Proof.
  rewrite !list_elem_of_In. vm_compute. tauto.
Defined.

Lemma same_busy_workers_same_ids_host2 :
  ∃ ids1 ids2,
    ids1 ≡ₚ ids2 ∧
    lines (stdout (program host2 five_tasks).2) =
      [start_line; end_line; ids_label +:+ " " +:+ join ", " (str <$> ids1)] ∧
    lines (stdout (program host2_in_order five_tasks).2) =
      [start_line; end_line; ids_label +:+ " " +:+ join ", " (str <$> ids2)].
Proof.
  exact (same_busy_workers_same_ids host2 host2_in_order five_tasks
           (λ _, eq_refl) host2_complete host2_in_order_complete
           (λ s, reflexivity (elements s)) (λ s, reverse_Permutation (elements s))
           host2_same_busy).
Defined.

(** On these two hosts the last lines do differ, in the order only. *)
Example last_lines_host2 :
  lines (stdout (program host2 five_tasks).2) !! 2 =
    Some "PYTHON: process IDs:  501, 500" ∧
  lines (stdout (program host2_in_order five_tasks).2) !! 2 =
    Some "PYTHON: process IDs:  500, 501".
Proof. split; vm_compute; reflexivity. Qed.

(** ** A run in which a chunk never comes back *)

Lemma foldl_deliver_partial E (xs : list Z) cs rest : ∀ done st,
  0 < cs →
  map_inv E cs (length xs) done st →
  NoDup (done ++ rest).*1 →
  Forall (λ e, e.1 < number_of_chunks (length xs) cs ∧ e.2 < default_processes E) rest →
  length done + length rest ≤ number_of_chunks (length xs) cs →
  map_inv E cs (length xs) (done ++ rest)
    (foldl (deliver fun_ {| pool_workers := spawned E |} (get_tasks xs cs)) st rest).
Proof.
  induction rest as [|e rest IH]; intros done st Hcs Hinv Hnd Hall Hlen.
  - by rewrite app_nil_r.
  - simpl. rewrite cons_middle, (assoc_L (++)).
    apply Forall_cons in Hall as [[Hc Hk] Hall].
    rewrite cons_middle, (assoc_L (++)) in Hnd.
    apply IH; [done| |done|done|].
    + apply deliver_inv; [done..| | done | done |simpl in Hlen; lia].
      rewrite !fmap_app in Hnd. apply NoDup_app in Hnd as [Hnd _].
      apply NoDup_app in Hnd as (_ & Hnd & _).
      intros Hin. apply (Hnd _ Hin). simpl. apply list_elem_of_singleton. done.
    + rewrite length_app. simpl in *. lia.
Qed.

Lemma stalled_has_tasks E n : stalled_schedule E n → 0 < n.
Proof.
  intros (_ & _ & Hlt). destruct n as [|n]; [|lia].
  rewrite default_chunksize_0 in Hlt. unfold number_of_chunks in Hlt.
  simpl in Hlt. lia.
Qed.

Lemma Pool_map_stalled E (xs : list Z) :
  stalled_schedule E (length xs) →
  Pool_map E {| pool_workers := spawned E |} fun_ xs =
    (Blocked,
     (Submit <$> seq 0 (length xs)) ++
     (schedule E ≫= chunk_events E
        (default_chunksize (length xs) (default_processes E)) (length xs))).
Proof.
  intros Hst. pose proof (stalled_has_tasks E _ Hst) as Hn.
  destruct Hst as (Hnd & Hall & Hlt).
  pose proof (default_processes_pos E) as Hw.
  set (n := length xs) in *.
  set (cs := default_chunksize n (default_processes E)) in *.
  assert (0 < cs) as Hcs by (apply default_chunksize_pos; lia).
  unfold Pool_map; simpl.
  assert (length (spawned E) = default_processes E) as Hsp.
  { unfold spawned. by rewrite length_fmap, length_seq. }
  rewrite Hsp. destruct (Nat.eqb_spec (default_processes E * 4) 0) as [|_]; [lia|].
  fold n cs.
  pose proof (foldl_deliver_partial E xs cs (schedule E) [] (MapResult_new cs n, [])
    Hcs (map_inv_new E cs n Hcs Hn) Hnd Hall ltac:(simpl; fold n; lia))
    as [Hsucc Hchunk Hleft Hev Hlength Hdone Htodo Htr].
  simpl in *. set (st := foldl _ _ _) in *.
  unfold bind, emit, MapResult_get; simpl.
  rewrite Hev, bool_decide_eq_false_2 by (fold n; lia). simpl.
  by rewrite Htr, app_nil_r.
Qed.

(** X6: when the result of some chunk never arrives, the driver stays
    blocked in [map]: the program does not end and standard output holds
    the start line only, the end line and the identifiers are never
    printed. *)
Theorem stalled_run_prints_start_only E (xs : list Z) :
  stalled_schedule E (length xs) →
  (program E xs).1 = Blocked ∧
  stdout (program E xs).2 = start_line +:+ newline ∧
  lines (stdout (program E xs).2) = [start_line].
Proof.
  intros Hst.
  assert (program E xs =
    (Blocked, Write (start_line +:+ newline) ::
              (Spawn ∘ pid <$> spawned E) ++
              (Submit <$> seq 0 (length xs)) ++
              (schedule E ≫= chunk_events E
                 (default_chunksize (length xs) (default_processes E)) (length xs))))
    as ->.
  { unfold program, run, with_Pool. rewrite Pool_spawned.
    unfold bind at 3; simpl. rewrite (Pool_map_stalled E xs Hst).
    unfold finally, print, emit, bind; simpl. done. }
  split; [done|]. simpl snd.
  assert (stdout (Write (start_line +:+ newline) ::
            (Spawn ∘ pid <$> spawned E) ++
            (Submit <$> seq 0 (length xs)) ++
            (schedule E ≫= chunk_events E
               (default_chunksize (length xs) (default_processes E)) (length xs))) =
          start_line +:+ newline) as ->.
  { rewrite stdout_write.
    rewrite <- (app_nil_r (_ ++ _ ++ _)), <- !(assoc_L (++)).
    rewrite !stdout_silent by events_of_kind.
    change (stdout []) with "". by rewrite append_empty_r. }
  split; [done|].
  replace (start_line +:+ newline) with (start_line +:+ newline +:+ "")
    by (by rewrite append_empty_r).
  by rewrite lines_line.
Qed.

Lemma host2_stalled_schedule : stalled_schedule host2_stalled (length five_tasks).
Proof.
  split; [|split].
  - apply NoDup_ListNoDup. vm_compute. repeat constructor; simpl; lia.
  - vm_compute. repeat constructor.
  - vm_compute. lia.
Defined.

Lemma stalled_run_prints_start_only_host2 :
  (program host2_stalled five_tasks).1 = Blocked ∧
  stdout (program host2_stalled five_tasks).2 = start_line +:+ newline ∧
  lines (stdout (program host2_stalled five_tasks).2) = [start_line].
Proof.
  exact (stalled_run_prints_start_only host2_stalled five_tasks host2_stalled_schedule).
Defined.

(** ** How many chunks, and where the tasks run *)

Lemma chunks_cover n w : 0 < w → n ≤ default_chunksize n w * (w * 4).
Proof.
  intros Hw. unfold default_chunksize.
  destruct (Nat.eqb_spec n 0); [lia|].
  pose proof (Nat.div_mod_eq n (w * 4)) as Hd.
  pose proof (Nat.mod_upper_bound n (w * 4) ltac:(lia)) as Hm.
  destruct (Nat.eqb_spec (n mod (w * 4)) 0); nia.
Qed.

Lemma number_of_chunks_bound n w :
  0 < w →
  number_of_chunks n (default_chunksize n w) ≤ w * 4 ∧
  number_of_chunks n (default_chunksize n w) ≤ n.
Proof.
  intros Hw. destruct (decide (n = 0)) as [->|Hn].
  { rewrite default_chunksize_0. unfold number_of_chunks. simpl. lia. }
  assert (0 < default_chunksize n w) as Hcs by (apply default_chunksize_pos; lia).
  pose proof (chunks_cover n w Hw) as Hcover.
  pose proof (number_of_chunks_lt n (default_chunksize n w) (w * 4) Hcs) as H1.
  pose proof (number_of_chunks_lt n (default_chunksize n w) n Hcs) as H2.
  split.
  - destruct (decide (number_of_chunks n (default_chunksize n w) ≤ w * 4)); [done|].
    assert (w * 4 * default_chunksize n w < n) by (apply H1; lia). lia.
  - destruct (decide (number_of_chunks n (default_chunksize n w) ≤ n)); [done|].
    assert (n * default_chunksize n w < n) by (apply H2; lia). nia.
Qed.

Lemma filter_collect_schedule E cs n (sched : list (nat * nat)) :
  filter (λ e, is_collect e) (sched ≫= chunk_events E cs n) = Collect <$> sched.*1.
Proof.
  induction sched as [|e sched IH]; [done|].
  rewrite bind_cons, filter_app, IH. unfold chunk_events.
  rewrite filter_app, filter_none by events_of_kind.
  by rewrite filter_all by (apply Forall_singleton; done).
Qed.

(** X7: in a complete run the chunk results collected are those of the
    chunks [0] to [N - 1], each once, where their number [N] is at most
    four times the number of workers and at most the number of tasks. *)
Theorem collects_at_most_four_per_worker E (xs : list Z) :
  complete_schedule E (length xs) →
  ∃ N,
    filter (λ e, is_collect e) (program E xs).2 ≡ₚ Collect <$> seq 0 N ∧
    N ≤ 4 * length (filter (λ e, is_spawn e) (program E xs).2) ∧
    N ≤ length xs.
Proof.
  intros Hsched.
  destruct (program_complete E xs Hsched) as (l & Hrun & Hprog).
  pose proof (default_processes_pos E) as Hw.
  destruct (number_of_chunks_bound (length xs) (default_processes E) Hw) as [Hb1 Hb2].
  exists (number_of_chunks (length xs)
            (default_chunksize (length xs) (default_processes E))).
  rewrite Hprog. simpl snd. split; [|split; [|exact Hb2]].
  - rewrite filter_cons_False by (simpl; auto).
    rewrite filter_app, (filter_none _ [_; _]) by (repeat constructor; simpl; auto).
    rewrite app_nil_r. unfold pool_trace. rewrite !filter_app.
    rewrite (filter_none _ (Spawn ∘ pid <$> _)) by events_of_kind.
    rewrite (filter_none _ (Submit <$> _)) by events_of_kind.
    rewrite (filter_none _ (Join ∘ pid <$> _)) by events_of_kind.
    rewrite filter_collect_schedule, app_nil_r. simpl.
    destruct Hsched as [Hperm _]. by rewrite Hperm.
  - rewrite filter_cons_False by (simpl; auto).
    rewrite filter_app, pool_trace_spawns.
    rewrite (filter_none _ [_; _]) by (repeat constructor; simpl; auto).
    rewrite app_nil_r, length_fmap. unfold spawned.
    rewrite length_fmap, length_seq. lia.
Qed.

Lemma collects_at_most_four_per_worker_host2 :
  ∃ N,
    filter (λ e, is_collect e) (program host2 five_tasks).2 ≡ₚ Collect <$> seq 0 N ∧
    N ≤ 4 * length (filter (λ e, is_spawn e) (program host2 five_tasks).2) ∧
    N ≤ length five_tasks.
Proof. exact (collects_at_most_four_per_worker host2 five_tasks host2_complete). Defined.

(** X8: in a complete run a task is only ever executed by a worker of the
    pool while that worker is alive: the executing process was started by
    the pool and is joined by it, and every worker is started before the
    first task event. *)
Theorem tasks_run_on_live_workers E (xs : list Z) :
  complete_schedule E (length xs) →
  let tr := (program E xs).2 in
  (∀ p t, Exec p t ∈ tr → Spawn p ∈ tr ∧ Join p ∈ tr) ∧
  precedes (λ e, is_spawn e) (λ e, is_task_event e) tr ∧
  precedes (λ e, is_task_event e) (λ e, is_join e) tr.
Proof.
  intros Hsched tr.
  destruct (program_complete E xs Hsched) as (l & Hrun & Hprog).
  destruct (complete_schedule_facts E _ Hsched) as (_ & Hall & _).
  destruct (program_pool_torn_down E xs Hsched) as (_ & _ & _ & _ & Hjoin).
  unfold tr. split; [|split; [|exact Hjoin]].
  - rewrite Hprog. simpl snd. intros p t Hexec.
    apply elem_of_cons in Hexec as [Hexec|Hexec]; [done|].
    apply elem_of_app in Hexec as [Hexec|Hexec].
    2:{ repeat (apply elem_of_cons in Hexec as [Hexec|Hexec]; [done|]).
        by apply elem_of_nil in Hexec. }
    assert (∃ w, w ∈ spawned E ∧ p = pid w) as (w & Hw & ->).
    { unfold pool_trace in Hexec.
      repeat (apply elem_of_app in Hexec as [Hexec|Hexec]).
      - by apply list_elem_of_fmap in Hexec as (? & ? & _).
      - by apply list_elem_of_fmap in Hexec as (? & ? & _).
      - apply list_elem_of_bind in Hexec as ([c k] & Hexec & Hin).
        unfold chunk_events in Hexec. simpl in Hexec.
        apply elem_of_app in Hexec as [Hexec|Hexec].
        + apply list_elem_of_fmap in Hexec as (t' & [= -> ->] & _).
          exists {| pid := spawn E k |}. split; [|done].
          apply list_elem_of_lookup. exists k. apply spawned_lookup.
          by apply (proj1 (Forall_forall _ _) Hall (c, k)).
        + by apply list_elem_of_singleton in Hexec.
      - by apply list_elem_of_fmap in Hexec as (? & ? & _). }
    split; apply elem_of_cons; right; apply elem_of_app; left; unfold pool_trace.
    + apply elem_of_app; left. apply list_elem_of_fmap. by exists w.
    + do 3 (apply elem_of_app; right). apply list_elem_of_fmap. by exists w.
  - rewrite Hprog. simpl snd. unfold pool_trace.
    match goal with
    | |- precedes _ _ (?w :: (?sp ++ ?rest) ++ ?tl) =>
        replace (w :: (sp ++ rest) ++ tl) with ((w :: sp) ++ (rest ++ tl))
          by (simpl; by rewrite <- !(assoc_L (++)))
    end.
    apply precedes_app.
    + constructor; [simpl; auto|]. events_of_kind.
    + repeat apply Forall_app_2; try events_of_kind.
      repeat constructor; simpl; auto.
Qed.

Lemma tasks_run_on_live_workers_host2 :
  let tr := (program host2 five_tasks).2 in
  (∀ p t, Exec p t ∈ tr → Spawn p ∈ tr ∧ Join p ∈ tr) ∧
  precedes (λ e, is_spawn e) (λ e, is_task_event e) tr ∧
  precedes (λ e, is_task_event e) (λ e, is_join e) tr.
Proof. exact (tasks_run_on_live_workers host2 five_tasks host2_complete). Defined.
